(** * PDF1PageSplitter: the slicing and size-budget export engine of [src/app.py]

    The program rasterises a one-page PDF, lets the user click horizontal cut
    lines on a scaled preview, and exports every slice between two cuts as a
    page of its own; a size-constrained preset lowers DPI and JPEG quality
    until the output fits a byte budget.

    Numbers.  Python [int] values are [Z].  Python [float] values are
    embedded as exact rationals [Q]: every float operation of the source
    ([*], [/], [-], comparisons, [int()], [round()]) is read as the exact
    operation on the rationals, and the only irrational one, [x ** 0.5], occurs
    as [int(a * (n / d) ** 0.5)], which is an integer square root
    ([int_mul_sqrt], characterised by [int_mul_sqrt_spec]).  The concrete
    inputs of the examples below are chosen so that binary64 arithmetic gives
    the same integers; [Binary64.estimate_mb] re-does the size estimate on
    primitive binary64 floats for the one claim that names a decimal value.

    External collaborators (PyMuPDF, Pillow, Streamlit) appear as parameters:
    the size of the pixmap PyMuPDF renders at a DPI, the encoder that turns a
    list of pages into bytes, the click delivered by the widget. *)

From Stdlib Require Import ZArith QArith Qabs Qround Qpower List Bool Lia Lqa Sorted.
From Stdlib Require PrimFloat Uint63 Ascii String.
Import ListNotations.

Set Warnings "-inexact-float".

(* ================================================================== *)
(** * Python numerics *)
(* ================================================================== *)

Module Py.

(** [int(x)] of a float: truncation toward zero. *)
Definition int (x : Q) : Z := Z.quot (Qnum x) (Z.pos (Qden x)).

(** [round(x)] of a float: the nearest integer, a tie going to the even one. *)
Definition round (x : Q) : Z :=
  let f := Qfloor x in
  match Qcompare (x - inject_Z f) (1 # 2) with
  | Lt => f
  | Gt => (f + 1)%Z
  | Eq => if Z.even f then f else (f + 1)%Z
  end.

(** [x < y] and [x > y] on floats. *)
Definition ltb (x y : Q) : bool := negb (Qle_bool y x).
Definition gtb (x y : Q) : bool := ltb y x.

(** [int(a * (n / d) ** 0.5)] for integers [a], [n], [d] with [n / d >= 0]:
    the truncation of [a * sqrt (n / d)].  For [a >= 0] it is the largest
    [k] with [k * k * d <= a * a * n], that is [Z.sqrt (a * a * n / d)];
    truncation toward zero mirrors it for [a < 0]. *)
Definition int_mul_sqrt (a n d : Z) : Z :=
  (Z.sgn a * Z.sqrt (a * a * n / d))%Z.

(** [sorted(l)]: Python's sort is stable, so any stable sort gives its
    result; this one inserts each element before the first one that is not
    smaller. *)
Fixpoint insert (x : Q) (l : list Q) : list Q :=
  match l with
  | [] => [x]
  | y :: l' => if Qle_bool x y then x :: y :: l' else y :: insert x l'
  end.

Fixpoint sorted (l : list Q) : list Q :=
  match l with
  | [] => []
  | x :: l' => insert x (sorted l')
  end.

End Py.

(* ================================================================== *)
(** * Quality presets ([QUALITY_PRESETS], lines 127-133) *)
(* ================================================================== *)

Inductive quality_label : Type :=
| Low | Normal | High | Native | Gradescope.

Record preset : Type := mkPreset { dpi : Z; comp : Q; jpg_q : Z }.

Definition QUALITY_PRESETS (l : quality_label) : preset :=
  match l with
  | Low => mkPreset 120 0.20 70
  | Normal => mkPreset 170 0.28 80
  | High => mkPreset 220 0.38 88
  | Native => mkPreset 300 0.55 95
  | Gradescope => mkPreset 220 0.38 80
  end.

(** [quality_label.startswith("Gradescope")] *)
Definition startswith_Gradescope (l : quality_label) : bool :=
  match l with Gradescope => true | _ => false end.

(* ================================================================== *)
(** * Rendering ([render_page_image], lines 135-154): the raster's size *)
(* ================================================================== *)

(** [pix] is the size of the pixmap PyMuPDF returns; with a pixel budget the
    image is resized by [s = (max_pixels / total) ** 0.5]. *)
Definition render_page_image_size (pix : Z * Z) (max_pixels : option Z) : Z * Z :=
  let '(width, height) := pix in
  match max_pixels with
  | None => (width, height)
  | Some max_pixels =>
      let total := (width * height)%Z in
      if (total >? max_pixels)%Z then
        (Z.max 1 (Py.int_mul_sqrt width max_pixels total),
         Z.max 1 (Py.int_mul_sqrt height max_pixels total))
      else (width, height)
  end.

(* ================================================================== *)
(** * Size estimate ([estimate_mb], lines 156-161) *)
(* ================================================================== *)

Definition estimate_mb (width_px height_px num_pages : Z) (comp : Q) : Q :=
  let total_pixels := (width_px * height_px)%Z in
  let raw_bytes := (total_pixels * 3)%Z in
  let est_bytes := (inject_Z raw_bytes * comp)%Q in
  let overhead := (num_pages * 60000)%Z in
  ((est_bytes + inject_Z overhead) / 1000000)%Q.

(** The formula of the specification, written as one expression. *)
Definition estimate_mb_spec (width_px height_px num_pages : Z) (compression_factor : Q) : Q :=
  ((inject_Z width_px * inject_Z height_px * 3 * compression_factor
    + inject_Z num_pages * 60000) / 1000000)%Q.

(** The same function on binary64 floats; an [int] operand of a float
    operation is converted first (exactly, below 2^53). *)
Module Binary64.
Import PrimFloat.

Definition float_of_int (z : Z) : float := of_uint63 (Uint63.of_Z z).

Definition estimate_mb (width_px height_px num_pages : Z) (comp : float) : float :=
  let total_pixels := (width_px * height_px)%Z in
  let raw_bytes := (total_pixels * 3)%Z in
  let est_bytes := (float_of_int raw_bytes * comp)%float in
  let overhead := (num_pages * 60000)%Z in
  ((est_bytes + float_of_int overhead) / float_of_int 1000000)%float.

(** The literals [0.2] and [0.66] as Python reads them: the nearest
    binary64 values. *)
Definition lit_0_2 : float := 0.2%float.
Definition lit_0_66 : float := 0.66%float.

End Binary64.

(* ================================================================== *)
(** * Click handler (lines 253-307): coordinate mapping and debounce *)
(* ================================================================== *)

(** The part of [st.session_state] the core reads and writes. *)
Record session : Type := mkSession {
  cuts_y : list Q;                (* fractions of the page height *)
  last_click : option (Z * Z)
}.

(** [W], [H]: size of the preview raster ([img.size]). *)
Definition display_width (W : Z) : Z := Z.min 1600 W.
Definition scale (W : Z) : Q := inject_Z (display_width W) / inject_Z W.
Definition display_height (W H : Z) : Z := Py.int (inject_Z H * scale W).

(** [abs((c * display_height) - (prev * display_height)) > min_pixel_gap],
    the test of line 303 with [prev = filtered[-1]]. *)
Definition far_apart (display_height min_pixel_gap : Z) (prev c : Q) : bool :=
  Py.gtb (Qabs (c * inject_Z display_height - prev * inject_Z display_height))
         (inject_Z min_pixel_gap).

(** One turn of the loop of lines 302-304: [c] is appended when nothing is
    kept yet or it lies more than the gap, in display pixels, after
    [filtered[-1]]. *)
Definition debounce_step (display_height min_pixel_gap : Z) (filtered : list Q) (c : Q)
  : list Q :=
  match filtered with
  | [] => filtered ++ [c]
  | _ :: _ =>
      if far_apart display_height min_pixel_gap (last filtered 0) c
      then filtered ++ [c]
      else filtered
  end.

(** Lines 299-304, the specification's [merge_cut]; the source fixes the gap
    at 12 pixels. *)
Definition merge_cut (before : list Q) (y_frac : Q) (display_height min_pixel_gap : Z)
  : list Q :=
  let cuts := Py.sorted (before ++ [y_frac]) in
  fold_left (debounce_step display_height min_pixel_gap) cuts [].

(** [a != b] on lists of floats. *)
Fixpoint cuts_eqb (a b : list Q) : bool :=
  match a, b with
  | [], [] => true
  | x :: a', y :: b' => Qeq_bool x y && cuts_eqb a' b'
  | _, _ => false
  end.

Definition click_eqb (a : option (Z * Z)) (b : Z * Z) : bool :=
  match a with
  | Some (x, y) => (x =? fst b)%Z && (y =? snd b)%Z
  | None => false
  end.

(** [y_orig] and [y_frac] of lines 294-295. *)
Definition y_orig_of (W y_disp : Z) : Z := Py.round (inject_Z y_disp / scale W).
Definition y_frac_of (W H y_disp : Z) : Q := inject_Z (y_orig_of W y_disp) / inject_Z H.

(** Lines 288-307.  [click] is what the widget returned: nothing, or a
    dictionary that may hold ["x"] and ["y"].  The result is the new session
    state and whether [st.rerun()] is called. *)
Definition on_click (W H : Z) (click : option (option Z * option Z)) (st : session)
  : session * bool :=
  match click with
  | Some (x, Some y) =>
      let click_x := match x with Some x => x | None => (-1)%Z end in
      let click_y := y in
      if negb (click_eqb (last_click st) (click_x, click_y)) then
        let y_disp := click_y in
        let y_orig := y_orig_of W y_disp in
        let y_frac := y_frac_of W H y_disp in
        if ((0 <? y_orig) && (y_orig <? H))%Z then
          let before := cuts_y st in
          let filtered := merge_cut before y_frac (display_height W H) 12 in
          (mkSession filtered (Some (click_x, click_y)), negb (cuts_eqb filtered before))
        else (mkSession (cuts_y st) (Some (click_x, click_y)), false)
      else (st, false)
  | _ => (st, false)
  end.

(* ================================================================== *)
(** * Slice plan (lines 310-318) *)
(* ================================================================== *)

(** [sorted([y for y in cuts_y if 0 < y < 1])] *)
Definition export_cuts (cuts_y : list Q) : list Q :=
  Py.sorted (filter (fun y => Py.ltb 0 y && Py.ltb y 1) cuts_y).

(** One turn of the loop of lines 315-317 on [(ranges, start)]. *)
Definition plan_step (acc : list (Q * Q) * Q) (y : Q) : list (Q * Q) * Q :=
  let '(ranges, start) := acc in (ranges ++ [(start, y)], y).

(** Lines 313-318, the specification's [plan_slices]. *)
Definition plan_slices (cuts : list Q) : list (Q * Q) :=
  let '(ranges, start) := fold_left plan_step cuts ([], 0%Q) in
  ranges ++ [(start, 1%Q)].

Definition export_ranges (cuts_y : list Q) : list (Q * Q) :=
  plan_slices (export_cuts cuts_y).

(* ================================================================== *)
(** * Export ([export_with_dpi], lines 324-356, and
      [build_output_pdf_from_slices], lines 163-182) *)
(* ================================================================== *)

(** The uploaded page: its size in points and, for each DPI, the size of the
    pixmap PyMuPDF renders ([render_page_image(pdf_bytes, dpi, None).size]). *)
Record document : Type := mkDocument {
  page_w_pt : Q;
  page_h_pt : Q;
  pixmap_size : Z -> Z * Z
}.

(** A crop box [(left, upper, right, lower)] of Pillow. *)
Record box : Type := mkBox { left : Z; upper : Z; right : Z; lower : Z }.
Definition box_width (b : box) : Z := (right b - left b)%Z.
Definition box_height (b : box) : Z := (lower b - upper b)%Z.

Inductive img_format : Type := PNG | JPEG.

(** One page of the output document: its size in points and the encoded
    crop placed on it. *)
Record out_page : Type := mkPage {
  out_w_pt : Q;
  out_h_pt : Q;
  page_crop : box;
  page_format : img_format;
  page_quality : option Z         (* the JPEG quality; PNG has none *)
}.

Definition build_output_pdf_from_slices
  (slices : list box) (px_to_pt : Q) (fmt : img_format) (jpg_quality : Z)
  : list out_page :=
  map (fun crop =>
         mkPage (inject_Z (box_width crop) * px_to_pt)
                (inject_Z (box_height crop) * px_to_pt)
                crop fmt
                (match fmt with PNG => None | JPEG => Some jpg_quality end))
      slices.

Definition max_export_pixels : Z := 250000000.

(** [int(page_pt * dpi_value / 72.0)], lines 325-326 and 333-334. *)
Definition export_px (page_pt : Q) (dpi_value : Z) : Z :=
  Py.int (page_pt * inject_Z dpi_value / 72.0).

(** Lines 325-332: [dpi_value] after the pixel ceiling. *)
Definition effective_dpi (doc : document) (dpi_value : Z) : Z :=
  let export_w_px := export_px (page_w_pt doc) dpi_value in
  let export_h_px := export_px (page_h_pt doc) dpi_value in
  let total_export_px := (export_w_px * export_h_px)%Z in
  if (total_export_px >? max_export_pixels)%Z then
    Z.max 72 (Py.int_mul_sqrt dpi_value max_export_pixels total_export_px)
  else dpi_value.

(** Lines 337-344: [export_img.size], the cached render at [base_dpi] resized
    when the effective DPI differs. *)
Definition export_img_size (doc : document) (base_dpi dpi_value : Z) : Z * Z :=
  let dpi_value := effective_dpi doc dpi_value in
  let '(width, height) := render_page_image_size (pixmap_size doc base_dpi) None in
  if negb (dpi_value =? base_dpi)%Z then
    let factor := (inject_Z dpi_value / inject_Z base_dpi)%Q in
    (Z.max 1 (Py.int (inject_Z width * factor)),
     Z.max 1 (Py.int (inject_Z height * factor)))
  else (width, height).

(** [(y1 - y0) * export_H < 2], the test of line 348. *)
Definition tiny_slice (export_H : Z) (r : Q * Q) : bool :=
  let '(y0, y1) := r in Py.ltb ((y1 - y0) * inject_Z export_H) 2.

(** The row conversion of lines 350-351. *)
Definition row_px (fraction : Q) (export_H : Z) : Z :=
  Py.int (fraction * inject_Z export_H).

(** One turn of the loop of lines 347-353. *)
Definition crop_step (export_W export_H : Z) (slices : list box) (r : Q * Q) : list box :=
  if tiny_slice export_H r then slices
  else
    let y0_px := row_px (fst r) export_H in
    let y1_px := row_px (snd r) export_H in
    slices ++ [mkBox 0 y0_px export_W y1_px].

Definition export_slices (ranges : list (Q * Q)) (export_W export_H : Z) : list box :=
  fold_left (crop_step export_W export_H) ranges [].

(** [px_to_pt = 72.0 / dpi_value], line 355, with the effective DPI. *)
Definition px_to_pt_of (doc : document) (dpi_value : Z) : Q :=
  (72.0 / inject_Z (effective_dpi doc dpi_value))%Q.

(** The document [export_with_dpi] composes; PyMuPDF's [tobytes] turns it
    into bytes. *)
Definition export_with_dpi
  (doc : document) (base_dpi : Z) (ranges : list (Q * Q)) (fmt : img_format)
  (dpi_value jpg_q : Z) : list out_page :=
  let '(export_W, export_H) := export_img_size doc base_dpi dpi_value in
  let slices := export_slices ranges export_W export_H in
  let px_to_pt := px_to_pt_of doc dpi_value in
  build_output_pdf_from_slices slices px_to_pt fmt jpg_q.

(** The page the export makes of a range it keeps, on a raster of
    [export_W] by [export_H] pixels. *)
Definition page_of (export_W export_H : Z) (px_to_pt : Q) (fmt : img_format) (jpg_q : Z)
  (r : Q * Q) : out_page :=
  let crop := mkBox 0 (row_px (fst r) export_H) export_W (row_px (snd r) export_H) in
  mkPage (inject_Z (box_width crop) * px_to_pt) (inject_Z (box_height crop) * px_to_pt)
         crop fmt
         (match fmt with PNG => None | JPEG => Some jpg_q end).

(** The pixel counts the export compares with the ceiling: the one the
    requested DPI asks for, and the one of the raster it crops. *)
Definition requested_pixels (doc : document) (dpi_value : Z) : Z :=
  (export_px (page_w_pt doc) dpi_value * export_px (page_h_pt doc) dpi_value)%Z.

Definition raster_pixels (doc : document) (base_dpi dpi_value : Z) : Z :=
  let '(export_W, export_H) := export_img_size doc base_dpi dpi_value in
  (export_W * export_H)%Z.

(** A renderer that returns a pixmap of the size the export computes,
    [int(page_pt * dpi / 72.0)] each way. *)
Definition renders_as_computed (doc : document) (dpi_value : Z) : Prop :=
  pixmap_size doc dpi_value
  = (export_px (page_w_pt doc) dpi_value, export_px (page_h_pt doc) dpi_value).

(** The row conversion as the specification words it:
    [row = round(fraction * raster_height)]. *)
Definition row_spec (fraction : Q) (raster_height : Z) : Z :=
  Py.round (fraction * inject_Z raster_height).


(* ================================================================== *)
(** * Budget search (lines 358-373) *)
(* ================================================================== *)

Definition target_mb : Q := 100.0.

Section BudgetSearch.

(** The export as the loop sees it: a function of [(dpi, jpg_q)] producing
    bytes, of which only the length is read. *)
Context {B : Type}.
Variable export : Z -> Z -> B.
Variable len : B -> Z.

Record search : Type := mkSearch {
  out_bytes : B;
  dpi_try : Z;
  jpg_q_try : Z;
  last_dpi : option Z;
  last_q : option Z;
  calls : list (Z * Z)            (* arguments of the exports made so far *)
}.

(** [len(out_bytes) / 1_000_000 > target_mb] *)
Definition over_target (out : B) : bool :=
  Py.gtb (inject_Z (len out) / 1000000) target_mb.

Definition opt_eqb (x : Z) (o : option Z) : bool :=
  match o with Some y => (x =? y)%Z | None => false end.

(** Line 367. *)
Definition stalled (s : search) : bool :=
  opt_eqb (dpi_try s) (last_dpi s) && opt_eqb (jpg_q_try s) (last_q s).

Definition next_dpi (d : Z) : Z := Z.max 10 (Py.int (inject_Z d * 0.80)).
Definition next_q (q : Z) : Z := Z.max 30 (q - 10).

(** Lines 369-373. *)
Definition retry (s : search) : search :=
  let d := next_dpi (dpi_try s) in
  let q := next_q (jpg_q_try s) in
  mkSearch (export d q) d q (Some (dpi_try s)) (Some (jpg_q_try s))
           (calls s ++ [(d, q)]).

(** The [while] loop of lines 366-373; [fuel] bounds the number of times its
    body is entered, [None] meaning the bound was too small. *)
Fixpoint budget_loop (fuel : nat) (s : search) : option search :=
  if over_target (out_bytes s) then
    match fuel with
    | O => None
    | S fuel' => if stalled s then Some s else budget_loop fuel' (retry s)
    end
  else Some s.

(** Lines 358-365: the first export and the state the loop starts in. *)
Definition budget_init (dpi jpg_quality : Z) : search :=
  mkSearch (export dpi jpg_quality) dpi (Z.min jpg_quality 85) None None
           [(dpi, jpg_quality)].

Definition budget_fuel (dpi jpg_quality : Z) : nat :=
  S (S (S (Z.to_nat dpi + Z.to_nat jpg_quality))).

Definition budget_search (dpi jpg_quality : Z) : option search :=
  budget_loop (budget_fuel dpi jpg_quality) (budget_init dpi jpg_quality).

(** Lines 358-373 for a chosen preset: only the Gradescope one enters the
    loop. *)
Definition export_clicked (label : quality_label) : option search :=
  let p := QUALITY_PRESETS label in
  if startswith_Gradescope label then budget_search (dpi p) (jpg_q p)
  else Some (mkSearch (export (dpi p) (jpg_q p)) (dpi p) (jpg_q p) None None
                      [(dpi p, jpg_q p)]).

(** Number of exports made inside the loop. *)
Definition retries (s : search) : nat := pred (length (calls s)).

End BudgetSearch.

Arguments search B : clear implicits.

(** How many times [next_dpi] must be applied to bring [d] to the floor 10,
    and [next_q] to bring [q] to the floor 30. *)
Fixpoint dpi_scalings_aux (fuel : nat) (d : Z) : nat :=
  match fuel with
  | O => O
  | S fuel' => if (d <=? 10)%Z then O else S (dpi_scalings_aux fuel' (next_dpi d))
  end.
Definition dpi_scalings (d : Z) : nat := dpi_scalings_aux (Z.to_nat d) d.

Fixpoint q_decrements_aux (fuel : nat) (q : Z) : nat :=
  match fuel with
  | O => O
  | S fuel' => if (q <=? 30)%Z then O else S (q_decrements_aux fuel' (next_q q))
  end.
Definition q_decrements (q : Z) : nat := q_decrements_aux (Z.to_nat q) q.

(* ================================================================== *)
(** * Recursive readings of the loops, used in the proofs *)
(* ================================================================== *)

(** Where a stable sort puts [c] when it is appended to an ordered list:
    after every element that is not greater. *)
Fixpoint insert_after (c : Q) (l : list Q) : list Q :=
  match l with
  | [] => [c]
  | t :: l' => if Py.ltb c t then c :: t :: l' else t :: insert_after c l'
  end.

(** The debounce loop, given the last cut kept so far. *)
Fixpoint debounce_from (dh gap : Z) (prev : option Q) (l : list Q) : list Q :=
  match l with
  | [] => []
  | c :: l' =>
      match prev with
      | None => c :: debounce_from dh gap (Some c) l'
      | Some p =>
          if far_apart dh gap p c then c :: debounce_from dh gap (Some c) l'
          else debounce_from dh gap prev l'
      end
  end.

Definition last_kept (filtered : list Q) : option Q :=
  match filtered with [] => None | _ :: _ => Some (last filtered 0%Q) end.

(** Every cut of [l] lies more than the gap after the one before it, the
    first one after [prev]. *)
Fixpoint spaced (dh gap : Z) (prev : option Q) (l : list Q) : Prop :=
  match l with
  | [] => True
  | c :: l' =>
      match prev with None => True | Some p => far_apart dh gap p c = true end
      /\ spaced dh gap (Some c) l'
  end.

Definition near (dh gap : Z) (prev : option Q) (c : Q) : Prop :=
  match prev with Some p => far_apart dh gap p c = false | None => False end.

(** [c] is within the gap of the last cut of [prev :: l] that is not greater
    than [c]. *)
Fixpoint absorbed (dh gap : Z) (prev : option Q) (l : list Q) (c : Q) : Prop :=
  match l with
  | [] => near dh gap prev c
  | t :: l' =>
      if Qle_bool t c then absorbed dh gap (Some t) l' c else near dh gap prev c
  end.

(** The plan loop, given the current [start]. *)
Fixpoint ranges_from (start : Q) (cuts : list Q) : list (Q * Q) :=
  match cuts with
  | [] => [(start, 1%Q)]
  | y :: cuts' => (start, y) :: ranges_from y cuts'
  end.

(** The crop loop, one range at a time. *)
Definition crop_of (export_W export_H : Z) (r : Q * Q) : list box :=
  crop_step export_W export_H [] r.

(** Boxes stacked top to bottom between the rows [lo] and [hi]: each starts
    where the one before ended, or lower. *)
Fixpoint stacked (lo hi : Z) (bs : list box) : Prop :=
  match bs with
  | [] => (lo <= hi)%Z
  | b :: bs' => (lo <= upper b)%Z /\ (upper b <= lower b)%Z /\ stacked (lower b) hi bs'
  end.

Definition total_height (bs : list box) : Z :=
  fold_right Z.add 0%Z (map box_height bs).

(** Degrade steps left before the pair [(dpi, jpg_q)] rests at its floors. *)
Definition steps_to_floor (p : Z * Z) : nat :=
  Nat.max (dpi_scalings (fst p)) (q_decrements (snd p)).

Definition at_floors (p : Z * Z) : Prop := (10 <= fst p)%Z /\ (30 <= snd p)%Z.

(** [b] asks for no more DPI and no more quality than [a]. *)
Definition not_above (a b : Z * Z) : Prop := (fst b <= fst a)%Z /\ (snd b <= snd a)%Z.

Definition pair_of {B : Type} (s : search B) : Z * Z := (dpi_try s, jpg_q_try s).

(** The [i]-th pair handed to the export by the budget search. *)
Definition degrade (p : Z * Z) : Z * Z := (next_dpi (fst p), next_q (snd p)).

Definition nth_call (dpi jpg_quality : Z) (i : nat) : Z * Z :=
  match i with
  | O => (dpi, jpg_quality)
  | S _ => Nat.iter i degrade (dpi, Z.min jpg_quality 85)
  end.

(* ================================================================== *)
(** * The rest of the editing session (lines 234-279) *)
(* ================================================================== *)

(** "Undo last cut", lines 236-238: [cuts_y.pop()] when there is a cut. *)
Definition undo_last_cut (st : session) : session :=
  match cuts_y st with
  | [] => st
  | _ :: _ => mkSession (removelast (cuts_y st)) (last_click st)
  end.

(** "Clear cuts", lines 239-240. *)
Definition clear_cuts (st : session) : session := mkSession [] (last_click st).

(** [max(l)] of a non-empty list, [d] standing for the empty one. *)
Definition max_list (l : list Q) (d : Q) : Q :=
  match l with
  | [] => d
  | x :: l' => fold_left (fun m y => if Py.ltb m y then y else m) l' x
  end.

(** Lines 261-262: cuts left in pixel rows by an older session are turned
    into fractions of the raster height [H]. *)
Definition normalise_cuts (H : Z) (cuts : list Q) : list Q :=
  match cuts with
  | [] => cuts
  | _ :: _ =>
      if Py.gtb (max_list cuts 0) 1 then map (fun y => y / inject_Z H)%Q cuts else cuts
  end.

(** Line 276: the display row on which the line of a cut is drawn. *)
Definition cut_line_row (y_frac : Q) (display_height : Z) : Z :=
  Py.int (y_frac * inject_Z display_height).

(** What the session keeps true of its cuts, for a preview [display_height]
    pixels high: they increase strictly, lie more than 12 display pixels apart
    and strictly inside the page. *)
Definition cut_set_ok (display_height : Z) (cuts : list Q) : Prop :=
  StronglySorted Qlt cuts
  /\ spaced display_height 12 None cuts
  /\ Forall (fun y => 0 < y /\ y < 1)%Q cuts.

(* ================================================================== *)
(** * Image format of the export (lines 208-233) *)
(* ================================================================== *)

(** The options of the select box "Image format (inside PDF)":
    ["JPEG (smaller, Default)"] and ["PNG (lossless)"]. *)
Inductive format_choice : Type := JPEG_smaller_Default | PNG_lossless.

(** The three keys of [st.session_state] the settings read and write; a key
    that was never set is [None]. *)
Record format_session : Type := mkFormat {
  gs_was_selected : option bool;
  img_format_prev : option format_choice;
  img_format_select : option format_choice
}.

(** [st.selectbox(..., index=0, key="img_format_select")]: a widget with a
    key shows the value the session holds for that key, the first option when
    it holds none, and leaves that value under the key. *)
Definition selectbox (s : format_session) : format_choice * format_session :=
  let v := match img_format_select s with Some v => v | None => JPEG_smaller_Default end in
  (v, mkFormat (gs_was_selected s) (img_format_prev s) (Some v)).

(** The user picking an option between two runs of the script. *)
Definition user_picks (c : format_choice) (s : format_session) : format_session :=
  mkFormat (gs_was_selected s) (img_format_prev s) (Some c).

(** ["PNG" if img_format_choice.startswith("PNG") else "JPEG"], line 233. *)
Definition format_of (c : format_choice) : img_format :=
  match c with PNG_lossless => PNG | JPEG_smaller_Default => JPEG end.

(** Lines 208-233, one run of the script: the format the export will use
    and the session it leaves. *)
Definition choose_format (label : quality_label) (s : format_session)
  : img_format * format_session :=
  let gs_selected := startswith_Gradescope label in
  let was := match gs_was_selected s with Some b => b | None => false end in
  let '(img_format_choice, s1) :=
    if gs_selected then
      let s0 :=
        if negb was then
          mkFormat (gs_was_selected s)
                   (Some (match img_format_select s with
                          | Some v => v
                          | None => JPEG_smaller_Default
                          end))
                   (img_format_select s)
        else s in
      (JPEG_smaller_Default,
       mkFormat (gs_was_selected s0) (img_format_prev s0) (Some JPEG_smaller_Default))
    else
      let s0 :=
        match was, img_format_prev s with
        | true, Some prev => mkFormat (gs_was_selected s) (img_format_prev s) (Some prev)
        | _, _ => s
        end in
      selectbox s0 in
  (format_of img_format_choice,
   mkFormat (Some gs_selected) (img_format_prev s1) (img_format_select s1)).

(* ================================================================== *)
(** * Measures of an exported document *)
(* ================================================================== *)

(** Boxes that tile the rows from [lo] to [hi]: each starts on the row where
    the one before ended. *)
Fixpoint tiled (lo hi : Z) (bs : list box) : Prop :=
  match bs with
  | [] => lo = hi
  | b :: bs' => upper b = lo /\ tiled (lower b) hi bs'
  end.

(** The heights of the pages of a document, in points, added up. *)
Definition total_height_pt (pages : list out_page) : Q :=
  fold_right Qplus 0%Q (map out_h_pt pages).

(* ================================================================== *)
(** * Name of the downloaded file (lines 198 and 379) *)
(* ================================================================== *)

Module FileName.
Import Ascii String.

(** What stands before the last ["."] of [name]; [None] when it has none. *)
Fixpoint before_last_dot (name : string) : option string :=
  match name with
  | EmptyString => None
  | String c rest =>
      match before_last_dot rest with
      | Some b => Some (String c b)
      | None => if Ascii.eqb c "."%char then Some EmptyString else None
      end
  end.

(** [uploaded.name.rsplit(".", 1)[0]] *)
Definition base_name (name : string) : string :=
  match before_last_dot name with Some b => b | None => name end.

(** [f"{base_name}_split.pdf"] *)
Definition file_name (name : string) : string :=
  (base_name name ++ "_split.pdf")%string.

Fixpoint no_dot (s : string) : bool :=
  match s with
  | EmptyString => true
  | String c rest => negb (Ascii.eqb c "."%char) && no_dot rest
  end.

End FileName.

(* ================================================================== *)
(** * The float operations rounded as binary64 rounds them *)
(* ================================================================== *)

(** Above, a float operation is read as the exact operation on rationals.
    Where the program decides on the last bit of a float (the pixel row of a
    click or of a crop, a cut kept or dropped by the 12-pixel test, a slice
    skipped by the 2-pixel test), the functions are given again in [Fl], every
    float operation followed by [Fl.rnd]: rounding to the nearest number with a
    53-bit significand, a tie going to the even significand, as binary64
    does.  The exponent is not bounded; no value of the program comes near the
    ends of its range.  Integers stay [Z], and [int()], [round()], [abs()],
    [sorted] and the comparisons are exact on floats, so they are the ones of
    [Py]. *)
Module Fl.

(** The binary exponent of [x > 0]: [2 ^ ex x <= x < 2 ^ (ex x + 1)]. *)
Definition ex (x : Q) : Z :=
  let l := (Z.log2 (Qnum x) - Z.log2 (Z.pos (Qden x)))%Z in
  if Qle_bool (2 ^ l) x then l else (l - 1)%Z.

Definition rnd_pos (x : Q) : Q :=
  let e := (ex x - 52)%Z in
  Qred (inject_Z (Py.round (x / 2 ^ e)) * 2 ^ e).

Definition rnd (x : Q) : Q :=
  match Qcompare x 0 with
  | Eq => 0
  | Gt => rnd_pos x
  | Lt => - rnd_pos (- x)
  end.

(** Half the distance, relative to [1], between [1] and the next float. *)
Definition u : Q := 1 # 9007199254740992.

(** [a * b], [a / b] and [a - b] on floats; an [int] operand is converted
    first, exactly below [2^53]. *)
Definition mul (a b : Q) : Q := rnd (a * b).
Definition div (a b : Q) : Q := rnd (a / b).
Definition sub (a b : Q) : Q := rnd (a - b).

(** ** Preview scale and click mapping (lines 265-267, 293-295) *)

Definition scale (W : Z) : Q := div (inject_Z (display_width W)) (inject_Z W).
Definition display_height (W H : Z) : Z := Py.int (mul (inject_Z H) (scale W)).

Definition y_orig_of (W y_disp : Z) : Z := Py.round (div (inject_Z y_disp) (scale W)).
Definition y_frac_of (W H y_disp : Z) : Q :=
  div (inject_Z (y_orig_of W y_disp)) (inject_Z H).

(** ** Debounce (lines 299-305) *)

(** [abs((c * display_height) - (prev * display_height)) > min_pixel_gap] *)
Definition far_apart (display_height min_pixel_gap : Z) (prev c : Q) : bool :=
  Py.gtb (Qabs (sub (mul c (inject_Z display_height)) (mul prev (inject_Z display_height))))
         (inject_Z min_pixel_gap).

Definition debounce_step (display_height min_pixel_gap : Z) (filtered : list Q) (c : Q)
  : list Q :=
  match filtered with
  | [] => filtered ++ [c]
  | _ :: _ =>
      if far_apart display_height min_pixel_gap (last filtered 0) c
      then filtered ++ [c]
      else filtered
  end.

Definition merge_cut (before : list Q) (y_frac : Q) (display_height min_pixel_gap : Z)
  : list Q :=
  let cuts := Py.sorted (before ++ [y_frac]) in
  fold_left (debounce_step display_height min_pixel_gap) cuts [].

(** Lines 288-307. *)
Definition on_click (W H : Z) (click : option (option Z * option Z)) (st : session)
  : session * bool :=
  match click with
  | Some (x, Some y) =>
      let click_x := match x with Some x => x | None => (-1)%Z end in
      let click_y := y in
      if negb (click_eqb (last_click st) (click_x, click_y)) then
        let y_disp := click_y in
        let y_orig := y_orig_of W y_disp in
        let y_frac := y_frac_of W H y_disp in
        if ((0 <? y_orig) && (y_orig <? H))%Z then
          let before := cuts_y st in
          let filtered := merge_cut before y_frac (display_height W H) 12 in
          (mkSession filtered (Some (click_x, click_y)), negb (cuts_eqb filtered before))
        else (mkSession (cuts_y st) (Some (click_x, click_y)), false)
      else (st, false)
  | _ => (st, false)
  end.

(** ** Export (lines 337-356 and 163-182) *)

(** Lines 337-344, with the effective DPI of lines 325-334. *)
Definition export_img_size (doc : document) (base_dpi dpi_value : Z) : Z * Z :=
  let dpi_value := effective_dpi doc dpi_value in
  let '(width, height) := render_page_image_size (pixmap_size doc base_dpi) None in
  if negb (dpi_value =? base_dpi)%Z then
    let factor := div (inject_Z dpi_value) (inject_Z base_dpi) in
    (Z.max 1 (Py.int (mul (inject_Z width) factor)),
     Z.max 1 (Py.int (mul (inject_Z height) factor)))
  else (width, height).

(** [(y1 - y0) * export_H < 2] *)
Definition tiny_slice (export_H : Z) (r : Q * Q) : bool :=
  let '(y0, y1) := r in Py.ltb (mul (sub y1 y0) (inject_Z export_H)) 2.

(** [int(fraction * export_H)] *)
Definition row_px (fraction : Q) (export_H : Z) : Z :=
  Py.int (mul fraction (inject_Z export_H)).

Definition crop_step (export_W export_H : Z) (slices : list box) (r : Q * Q) : list box :=
  if tiny_slice export_H r then slices
  else
    let y0_px := row_px (fst r) export_H in
    let y1_px := row_px (snd r) export_H in
    slices ++ [mkBox 0 y0_px export_W y1_px].

Definition export_slices (ranges : list (Q * Q)) (export_W export_H : Z) : list box :=
  fold_left (crop_step export_W export_H) ranges [].

(** [px_to_pt = 72.0 / dpi_value] *)
Definition px_to_pt_of (doc : document) (dpi_value : Z) : Q :=
  div 72 (inject_Z (effective_dpi doc dpi_value)).

(** Lines 163-182.  PyMuPDF refuses to write a document without pages:
    [out.tobytes()] raises when no slice was added, and the export has no
    result ([None]). *)
Definition build_output_pdf_from_slices
  (slices : list box) (px_to_pt : Q) (fmt : img_format) (jpg_quality : Z)
  : option (list out_page) :=
  let out :=
    map (fun crop =>
           mkPage (mul (inject_Z (box_width crop)) px_to_pt)
                  (mul (inject_Z (box_height crop)) px_to_pt)
                  crop fmt
                  (match fmt with PNG => None | JPEG => Some jpg_quality end))
        slices in
  match out with
  | [] => None
  | _ :: _ => Some out
  end.

Definition export_with_dpi
  (doc : document) (base_dpi : Z) (ranges : list (Q * Q)) (fmt : img_format)
  (dpi_value jpg_q : Z) : option (list out_page) :=
  let '(export_W, export_H) := export_img_size doc base_dpi dpi_value in
  let slices := export_slices ranges export_W export_H in
  let px_to_pt := px_to_pt_of doc dpi_value in
  build_output_pdf_from_slices slices px_to_pt fmt jpg_q.

Definition raster_pixels (doc : document) (base_dpi dpi_value : Z) : Z :=
  let '(export_W, export_H) := export_img_size doc base_dpi dpi_value in
  (export_W * export_H)%Z.

(** ** Recursive readings of the loops *)

Fixpoint debounce_from (dh gap : Z) (prev : option Q) (l : list Q) : list Q :=
  match l with
  | [] => []
  | c :: l' =>
      match prev with
      | None => c :: debounce_from dh gap (Some c) l'
      | Some p =>
          if far_apart dh gap p c then c :: debounce_from dh gap (Some c) l'
          else debounce_from dh gap prev l'
      end
  end.

(** Each cut of [l] is measured by the program as more than the gap after
    the one before it, the first one after [prev]. *)
Fixpoint spaced (dh gap : Z) (prev : option Q) (l : list Q) : Prop :=
  match l with
  | [] => True
  | c :: l' =>
      match prev with None => True | Some p => far_apart dh gap p c = true end
      /\ spaced dh gap (Some c) l'
  end.

(** What the session keeps true of its cuts. *)
Definition cut_set_ok (display_height : Z) (cuts : list Q) : Prop :=
  StronglySorted Qlt cuts
  /\ spaced display_height 12 None cuts
  /\ Forall (fun y => 0 < y /\ y < 1)%Q cuts.

Definition crop_of (export_W export_H : Z) (r : Q * Q) : list box :=
  crop_step export_W export_H [] r.

End Fl.

(* ================================================================== *)
(** * Facts about the numeric helpers *)
(* ================================================================== *)

Lemma ltb_lt (x y : Q) : Py.ltb x y = true <-> (x < y)%Q.
Proof.
  unfold Py.ltb. rewrite negb_true_iff. split; intro H.
  - apply Qnot_le_lt. intro Hle. apply Qle_bool_iff in Hle. congruence.
  - destruct (Qle_bool y x) eqn:E; [|reflexivity].
    apply Qle_bool_iff in E. exfalso. apply (Qlt_not_le _ _ H E).
Qed.

Lemma ltb_ge (x y : Q) : Py.ltb x y = false <-> (y <= x)%Q.
Proof.
  unfold Py.ltb. rewrite negb_false_iff. apply Qle_bool_iff.
Qed.

Lemma gtb_gt (x y : Q) : Py.gtb x y = true <-> (y < x)%Q.
Proof. unfold Py.gtb. apply ltb_lt. Qed.

Lemma gtb_le (x y : Q) : Py.gtb x y = false <-> (x <= y)%Q.
Proof. unfold Py.gtb. apply ltb_ge. Qed.

Lemma int_nonneg (x : Q) : (0 <= x)%Q -> Py.int x = Qfloor x.
Proof.
  destruct x as [n d]. unfold Qle, Py.int, Qfloor. simpl. intro H.
  apply Z.quot_div_nonneg; lia.
Qed.

Lemma int_comp (x y : Q) : (x == y)%Q -> Py.int x = Py.int y.
Proof.
  intro E. destruct (Qlt_le_dec x 0) as [Hneg | Hpos].
  - assert (Hy : (y < 0)%Q) by (rewrite <- E; exact Hneg).
    assert (Hx' : Py.int x = (- Qfloor (- x))%Z).
    { destruct x as [n d]. unfold Qlt in Hneg. unfold Py.int, Qfloor, Qopp. simpl in *.
      rewrite <- (Z.opp_involutive n) at 1. rewrite Z.quot_opp_l by lia.
      f_equal. apply Z.quot_div_nonneg; lia. }
    assert (Hy' : Py.int y = (- Qfloor (- y))%Z).
    { destruct y as [n d]. unfold Qlt in Hy. unfold Py.int, Qfloor, Qopp. simpl in *.
      rewrite <- (Z.opp_involutive n) at 1. rewrite Z.quot_opp_l by lia.
      f_equal. apply Z.quot_div_nonneg; lia. }
    rewrite Hx', Hy'. f_equal. apply Qfloor_comp. rewrite E. reflexivity.
  - assert (Hy : (0 <= y)%Q) by (rewrite <- E; exact Hpos).
    rewrite !int_nonneg by assumption. apply Qfloor_comp, E.
Qed.

Lemma int_inject_Z (z : Z) : Py.int (inject_Z z) = z.
Proof. unfold Py.int. simpl. apply Z.quot_1_r. Qed.

Lemma int_le (x : Q) : (0 <= x)%Q -> (inject_Z (Py.int x) <= x)%Q.
Proof. intro H. rewrite int_nonneg by exact H. apply Qfloor_le. Qed.

Lemma int_lt_succ (x : Q) : (0 <= x)%Q -> (x < inject_Z (Py.int x) + 1)%Q.
Proof.
  intro H. rewrite int_nonneg by exact H.
  pose proof (Qlt_floor x) as L. rewrite inject_Z_plus in L. exact L.
Qed.

Lemma int_pos (x : Q) : (0 <= x)%Q -> (0 <= Py.int x)%Z.
Proof.
  intro H. rewrite int_nonneg by exact H.
  rewrite <- (Qfloor_Z 0). apply Qfloor_resp_le. exact H.
Qed.

Lemma int_mono (x y : Q) : (0 <= x)%Q -> (x <= y)%Q -> (Py.int x <= Py.int y)%Z.
Proof.
  intros Hx Hxy. rewrite !int_nonneg.
  - apply Qfloor_resp_le, Hxy.
  - apply Qle_trans with x; assumption.
  - exact Hx.
Qed.

(** [int (a * b / c)] on integers is the truncated quotient. *)
Lemma int_frac (a c : Z) (x : Q) :
  (0 < c)%Z -> (x == inject_Z a / inject_Z c)%Q -> Py.int x = Z.quot a c.
Proof.
  intros Hc E. rewrite (int_comp _ _ E).
  destruct c as [|p|p]; try lia.
  unfold Py.int, Qdiv, Qinv, Qmult, inject_Z. simpl.
  rewrite Z.mul_1_r. reflexivity.
Qed.

(** [round] returns an integer within one half of its argument. *)
Lemma round_near (x : Q) : (Qabs (inject_Z (Py.round x) - x) <= 1 # 2)%Q.
Proof.
  unfold Py.round.
  pose proof (Qfloor_le x) as L. pose proof (Qlt_floor x) as U.
  rewrite inject_Z_plus in U. change (inject_Z 1) with 1%Q in U.
  set (f := Qfloor x) in *.
  assert (Hf : (Qabs (inject_Z f - x) <= 1 # 2)%Q <-> (x - inject_Z f <= 1 # 2)%Q).
  { split; intro H.
    - apply Qabs_Qle_condition in H. lra.
    - apply Qabs_Qle_condition. lra. }
  assert (Hg : (Qabs (inject_Z (f + 1) - x) <= 1 # 2)%Q <-> (1 # 2 <= x - inject_Z f)%Q).
  { rewrite inject_Z_plus. change (inject_Z 1) with 1%Q. split; intro H.
    - apply Qabs_Qle_condition in H. lra.
    - apply Qabs_Qle_condition. lra. }
  destruct (Qcompare (x - inject_Z f) (1 # 2)) eqn:C.
  - apply Qeq_alt in C. destruct (Z.even f); [apply Hf | apply Hg]; lra.
  - apply Qlt_alt in C. apply Hf. lra.
  - apply Qgt_alt in C. apply Hg. lra.
Qed.

(** [int_mul_sqrt a n d] is the integer part of [a * sqrt (n / d)]: its
    square times [d] is at most [a * a * n], and the next integer's is more. *)
Lemma int_mul_sqrt_spec (a n d : Z) :
  (0 <= a)%Z -> (0 <= n)%Z -> (0 < d)%Z ->
  let k := Py.int_mul_sqrt a n d in
  (0 <= k /\ k * k * d <= a * a * n < (k + 1) * (k + 1) * d)%Z.
Proof.
  intros Ha Hn Hd k. subst k. unfold Py.int_mul_sqrt.
  assert (Hq : (0 <= a * a * n / d)%Z) by (apply Z.div_pos; nia).
  pose proof (Z.sqrt_spec _ Hq) as [S1 S2].
  pose proof (Z.sqrt_nonneg (a * a * n / d)) as S0.
  pose proof (Z.mul_div_le (a * a * n) d Hd) as D1.
  pose proof (Z.mul_succ_div_gt (a * a * n) d Hd) as D2.
  set (r := Z.sqrt (a * a * n / d)) in *.
  set (q := (a * a * n / d)%Z) in *.
  destruct (Z.eq_dec a 0) as [-> | Hne].
  - assert (Eq0 : q = 0%Z) by (subst q; reflexivity).
    assert (Er0 : r = 0%Z) by (rewrite Eq0 in S1; nia).
    rewrite Er0. change (Z.sgn 0) with 0%Z. lia.
  - assert (Hs : Z.sgn a = 1%Z) by (apply Z.sgn_pos; lia).
    rewrite Hs, !Z.mul_1_l. repeat split; try lia; nia.
Qed.

(* ================================================================== *)
(** * Sorting *)
(* ================================================================== *)

Lemma Qle_bool_total (x y : Q) : Qle_bool x y = false -> Qle_bool y x = true.
Proof.
  intro H. apply Qle_bool_iff. apply Qlt_le_weak. apply ltb_lt.
  unfold Py.ltb. rewrite H. reflexivity.
Qed.

Lemma In_insert (x y : Q) (l : list Q) : In y (Py.insert x l) <-> y = x \/ In y l.
Proof.
  induction l as [|z l IH]; simpl.
  - intuition congruence.
  - destruct (Qle_bool x z); simpl; [intuition congruence|].
    rewrite IH. intuition congruence.
Qed.

Lemma In_sorted (y : Q) (l : list Q) : In y (Py.sorted l) <-> In y l.
Proof.
  induction l as [|x l IH]; simpl; [tauto|].
  rewrite In_insert, IH. intuition congruence.
Qed.

Lemma insert_ordered (x : Q) (l : list Q) :
  StronglySorted Qle l -> StronglySorted Qle (Py.insert x l).
Proof.
  induction 1 as [|z l Hl IH Hz]; simpl.
  - repeat constructor.
  - destruct (Qle_bool x z) eqn:E.
    + apply Qle_bool_iff in E. constructor; [constructor; assumption|].
      constructor; [exact E|].
      eapply Forall_impl; [|exact Hz]. intros a Ha. eapply Qle_trans; eassumption.
    + apply Qle_bool_total, Qle_bool_iff in E. constructor; [exact IH|].
      apply Forall_forall. intros a Ha. apply In_insert in Ha as [-> | Ha].
      * exact E.
      * rewrite Forall_forall in Hz. apply Hz, Ha.
Qed.

Lemma sorted_ordered (l : list Q) : StronglySorted Qle (Py.sorted l).
Proof.
  induction l as [|x l IH]; simpl; [constructor | apply insert_ordered, IH].
Qed.

(** Sorting an ordered list changes nothing. *)
Lemma sorted_id (l : list Q) : StronglySorted Qle l -> Py.sorted l = l.
Proof.
  induction 1 as [|x l Hl IH Hx]; simpl; [reflexivity|].
  rewrite IH. destruct l as [|y l']; [reflexivity|]. simpl.
  inversion Hx as [|? ? Hxy _]; subst.
  apply Qle_bool_iff in Hxy. rewrite Hxy. reflexivity.
Qed.

Lemma insert_after_head (c : Q) (l : list Q) :
  exists h r, insert_after c l = h :: r /\ (h = c \/ exists l', l = h :: l').
Proof.
  destruct l as [|t l']; simpl.
  - exists c, []. auto.
  - destruct (Py.ltb c t).
    + exists c, (t :: l'). auto.
    + exists t, (insert_after c l'). split; [reflexivity|]. right. eauto.
Qed.

(** Appending [c] to an ordered list and sorting puts [c] after the elements
    that are not greater. *)
Lemma sorted_snoc (c : Q) (l : list Q) :
  StronglySorted Qle l -> Py.sorted (l ++ [c]) = insert_after c l.
Proof.
  induction 1 as [|t l Hl IH Ht]; simpl; [reflexivity|].
  rewrite IH. destruct (Py.ltb c t) eqn:E.
  - apply ltb_lt in E.
    assert (Hl' : insert_after c l = c :: l).
    { destruct l as [|u l']; [reflexivity|]. simpl.
      inversion Ht as [|? ? Htu _]; subst.
      assert (Hcu : Py.ltb c u = true) by (apply ltb_lt; lra).
      rewrite Hcu. reflexivity. }
    rewrite Hl'. simpl.
    assert (Etc : Qle_bool t c = false).
    { destruct (Qle_bool t c) eqn:F; [|reflexivity]. apply Qle_bool_iff in F. lra. }
    rewrite Etc. f_equal.
    destruct l as [|u l']; [reflexivity|]. simpl.
    inversion Ht as [|? ? Htu _]; subst. apply Qle_bool_iff in Htu.
    rewrite Htu. reflexivity.
  - apply ltb_ge in E.
    destruct (insert_after_head c l) as (h & r & Hhr & Hh). rewrite Hhr. simpl.
    assert (Hth : Qle_bool t h = true).
    { apply Qle_bool_iff. destruct Hh as [-> | [l' ->]]; [exact E|].
      inversion Ht; assumption. }
    rewrite Hth. reflexivity.
Qed.

(* ================================================================== *)
(** * The debounce filter *)
(* ================================================================== *)

Section Debounce.

Variables dh gap : Z.
Hypothesis gap_nonneg : (0 <= gap)%Z.

Lemma far_apart_comp (p x y : Q) :
  (x == y)%Q -> far_apart dh gap p x = far_apart dh gap p y.
Proof.
  intro E. unfold far_apart, Py.gtb, Py.ltb. f_equal.
  apply Qleb_comp; [|reflexivity]. rewrite E. reflexivity.
Qed.

Lemma far_apart_same (x : Q) : far_apart dh gap x x = false.
Proof.
  unfold far_apart. apply gtb_le.
  assert (E : (x * inject_Z dh - x * inject_Z dh == 0)%Q) by ring.
  rewrite E. simpl.
  change 0%Q with (inject_Z 0). rewrite <- Zle_Qle. exact gap_nonneg.
Qed.

Lemma last_kept_snoc (l : list Q) (c : Q) : last_kept (l ++ [c]) = Some c.
Proof.
  unfold last_kept. destruct (l ++ [c]) eqn:E.
  - destruct l; discriminate.
  - rewrite <- E, last_last. reflexivity.
Qed.

(** The loop of lines 301-304 is [debounce_from], started after the last cut
    already kept. *)
Lemma fold_debounce (l filtered : list Q) :
  fold_left (debounce_step dh gap) l filtered
  = filtered ++ debounce_from dh gap (last_kept filtered) l.
Proof.
  revert filtered. induction l as [|c l IH]; intro filtered; simpl.
  - rewrite app_nil_r. reflexivity.
  - rewrite IH. unfold debounce_step. destruct filtered as [|a f'].
    + simpl. reflexivity.
    + cbn [last_kept]. destruct (far_apart dh gap (last (a :: f') 0%Q) c).
      * rewrite last_kept_snoc, <- app_assoc. reflexivity.
      * reflexivity.
Qed.

Lemma merge_cut_debounce (before : list Q) (y_frac : Q) :
  merge_cut before y_frac dh gap
  = debounce_from dh gap None (Py.sorted (before ++ [y_frac])).
Proof. unfold merge_cut. rewrite fold_debounce. reflexivity. Qed.

Lemma In_debounce (o : option Q) (l : list Q) (x : Q) :
  In x (debounce_from dh gap o l) -> In x l.
Proof.
  revert o. induction l as [|c l IH]; intros o H; simpl in *; [exact H|].
  destruct o as [p|].
  - destruct (far_apart dh gap p c).
    + destruct H as [-> | H]; [left; reflexivity | right; eapply IH, H].
    + right. eapply IH, H.
  - destruct H as [-> | H]; [left; reflexivity | right; eapply IH, H].
Qed.

Lemma debounce_ordered (o : option Q) (l : list Q) :
  StronglySorted Qle l -> StronglySorted Qle (debounce_from dh gap o l).
Proof.
  intro H. revert o. induction H as [|c l Hl IH Hc]; intro o; simpl; [constructor|].
  assert (K : StronglySorted Qle (c :: debounce_from dh gap (Some c) l)).
  { constructor; [apply IH|]. apply Forall_forall. intros x Hx.
    rewrite Forall_forall in Hc. apply Hc. eapply In_debounce, Hx. }
  destruct o as [p|]; [destruct (far_apart dh gap p c)|]; auto.
Qed.

Lemma debounce_spaced (o : option Q) (l : list Q) :
  spaced dh gap o (debounce_from dh gap o l).
Proof.
  revert o. induction l as [|c l IH]; intro o; simpl; [exact I|].
  destruct o as [p|].
  - destruct (far_apart dh gap p c) eqn:E; simpl; auto.
  - simpl. auto.
Qed.

(** The filter keeps a spaced list whole. *)
Lemma spaced_fixed (o : option Q) (l : list Q) :
  spaced dh gap o l -> debounce_from dh gap o l = l.
Proof.
  revert o. induction l as [|c l IH]; intros o H; simpl in *; [reflexivity|].
  destruct H as [Hc Hl]. destruct o as [p|].
  - rewrite Hc. f_equal. apply IH, Hl.
  - f_equal. apply IH, Hl.
Qed.

(** A cut that is absorbed by a spaced list is dropped again when the list
    is filtered with it. *)
Lemma absorbed_dropped (c : Q) (o : option Q) (l : list Q) :
  spaced dh gap o l -> absorbed dh gap o l c ->
  debounce_from dh gap o (insert_after c l) = l.
Proof.
  revert o. induction l as [|t l IH]; intros o Hs Ha; simpl in *.
  - destruct o as [p|]; [|contradiction]. simpl in Ha. rewrite Ha. reflexivity.
  - destruct Hs as [Ht Hl]. unfold Py.ltb.
    destruct (Qle_bool t c) eqn:E; simpl.
    + destruct o as [p|].
      * rewrite Ht. f_equal. apply IH; assumption.
      * f_equal. apply IH; assumption.
    + destruct o as [p|]; [|contradiction]. simpl in Ha. rewrite Ha, Ht.
      f_equal. apply spaced_fixed, Hl.
Qed.

(** After [c] itself, or a cut that absorbed it, nothing kept can be as
    small as [c]. *)
Lemma absorbed_after (c p : Q) (l : list Q) :
  Forall (Qle c) l -> far_apart dh gap p c = false ->
  absorbed dh gap (Some p) (debounce_from dh gap (Some p) l) c.
Proof.
  intros Hl Hp.
  pose proof (debounce_spaced (Some p) l) as Hs.
  destruct (debounce_from dh gap (Some p) l) as [|d D] eqn:E; simpl; [exact Hp|].
  destruct (Qle_bool d c) eqn:F; [|exact Hp]. exfalso.
  apply Qle_bool_iff in F.
  assert (Hd : In d l) by (eapply In_debounce; rewrite E; left; reflexivity).
  rewrite Forall_forall in Hl. specialize (Hl d Hd).
  assert (Edc : (d == c)%Q) by (apply Qle_antisym; assumption).
  simpl in Hs. destruct Hs as [Hfar _].
  rewrite (far_apart_comp p d c Edc) in Hfar. congruence.
Qed.

(** Filtering an ordered list that contains [c] leaves a list that absorbs
    [c]. *)
Lemma debounce_absorbs (c : Q) (o : option Q) (l : list Q) :
  StronglySorted Qle l -> In c l ->
  absorbed dh gap o (debounce_from dh gap o l) c.
Proof.
  intro Hl. revert o. induction Hl as [|x l Hl IH Hx]; intros o Hin; [contradiction|].
  assert (Keep : forall y, Qle_bool y y = true).
  { intro y. apply Qle_bool_iff, Qle_refl. }
  destruct Hin as [-> | Hin].
  - simpl. destruct o as [p|].
    + destruct (far_apart dh gap p c) eqn:E.
      * simpl. rewrite Keep. apply absorbed_after; [exact Hx | apply far_apart_same].
      * apply absorbed_after; assumption.
    + simpl. rewrite Keep. apply absorbed_after; [exact Hx | apply far_apart_same].
  - assert (Hxc : Qle_bool x c = true).
    { apply Qle_bool_iff. rewrite Forall_forall in Hx. apply Hx, Hin. }
    simpl. destruct o as [p|].
    + destruct (far_apart dh gap p x) eqn:E.
      * simpl. rewrite Hxc. apply IH, Hin.
      * apply IH, Hin.
    + simpl. rewrite Hxc. apply IH, Hin.
Qed.

End Debounce.

(** C5.  Merging is idempotent: merging the same fraction [c] into the result
    of [merge_cut S c] returns that result unchanged, for every cut list [S],
    fraction [c], display height and non-negative pixel gap (the source uses
    the gap 12). *)
Theorem merge_cut_idempotent (S : list Q) (c : Q) (display_height min_pixel_gap : Z) :
  (0 <= min_pixel_gap)%Z ->
  merge_cut (merge_cut S c display_height min_pixel_gap) c display_height min_pixel_gap
  = merge_cut S c display_height min_pixel_gap.
Proof.
  intro Hgap.
  rewrite (merge_cut_debounce display_height min_pixel_gap S c).
  set (L := Py.sorted (S ++ [c])).
  set (T := debounce_from display_height min_pixel_gap None L).
  rewrite merge_cut_debounce.
  assert (HL : StronglySorted Qle L) by apply sorted_ordered.
  assert (HT : StronglySorted Qle T) by (apply debounce_ordered, HL).
  rewrite (sorted_snoc c T HT).
  apply absorbed_dropped.
  - apply debounce_spaced.
  - apply debounce_absorbs; [exact Hgap | exact HL |].
    apply In_sorted, in_or_app. right. left. reflexivity.
Qed.

Lemma merge_cut_idempotent_witness :
  merge_cut (merge_cut [0.5; 0.2] 0.21 1000 12) 0.21 1000 12
  = merge_cut [0.5; 0.2] 0.21 1000 12.
Proof.
  apply (merge_cut_idempotent [0.5; 0.2] 0.21 1000 12). lia.
Defined.

(* ================================================================== *)
(** * The size estimate *)
(* ================================================================== *)

(** C9.  [estimate_mb] is the formula
    [(width * height * 3 * compression_factor + num_pages * 60000) / 1_000_000]
    for all inputs; at [(1000, 1000, 1, 0.2)] it is exactly [0.66], on the
    rationals and on binary64 floats. *)
Theorem estimate_mb_formula :
  (forall (width_px height_px num_pages : Z) (compression_factor : Q),
      (estimate_mb width_px height_px num_pages compression_factor
       == estimate_mb_spec width_px height_px num_pages compression_factor)%Q)
  /\ (estimate_mb 1000 1000 1 0.2 == 0.66)%Q
  /\ (estimate_mb 1000 1000 1 0.2
      == (1000 * 1000 * 3 * 0.2 + 60000) / 1000000)%Q
  /\ Binary64.estimate_mb 1000 1000 1 Binary64.lit_0_2 = Binary64.lit_0_66.
Proof.
  split; [|split; [|split]].
  - intros w h n c. unfold estimate_mb, estimate_mb_spec.
    rewrite !inject_Z_mult.
    change (inject_Z 3) with 3%Q. change (inject_Z 60000) with 60000%Q.
    reflexivity.
  - reflexivity.
  - reflexivity.
  - vm_compute. reflexivity.
Qed.

(* ================================================================== *)
(** * The slice plan *)
(* ================================================================== *)

Lemma plan_fold (cuts : list Q) (ranges : list (Q * Q)) (start : Q) :
  (let '(r, s) := fold_left plan_step cuts (ranges, start) in r ++ [(s, 1%Q)])
  = ranges ++ ranges_from start cuts.
Proof.
  revert ranges start. induction cuts as [|y cuts IH]; intros ranges start; simpl.
  - reflexivity.
  - rewrite IH, <- app_assoc. reflexivity.
Qed.

Lemma plan_slices_ranges (cuts : list Q) : plan_slices cuts = ranges_from 0 cuts.
Proof. unfold plan_slices. apply (plan_fold cuts [] 0%Q). Qed.

Lemma ranges_from_combine (start : Q) (cuts : list Q) :
  ranges_from start cuts = combine (start :: cuts) (cuts ++ [1%Q]).
Proof.
  revert start. induction cuts as [|y cuts IH]; intro start; simpl.
  - reflexivity.
  - rewrite IH. reflexivity.
Qed.

Lemma ranges_from_length (start : Q) (cuts : list Q) :
  length (ranges_from start cuts) = S (length cuts).
Proof.
  revert start. induction cuts as [|y cuts IH]; intro start; simpl; [|rewrite IH]; reflexivity.
Qed.

(** The cuts the export keeps from the session: those strictly inside the
    page, in order. *)
Lemma filter_all {A : Type} (f : A -> bool) (l : list A) :
  Forall (fun x => f x = true) l -> filter f l = l.
Proof.
  induction 1 as [|x l Hx _ IH]; simpl; [reflexivity|]. rewrite Hx, IH. reflexivity.
Qed.

Lemma export_cuts_id (cuts : list Q) :
  StronglySorted Qle cuts -> Forall (fun y => 0 < y /\ y < 1)%Q cuts ->
  export_cuts cuts = cuts.
Proof.
  intros Hs Hin. unfold export_cuts. rewrite filter_all.
  - apply sorted_id, Hs.
  - eapply Forall_impl; [|exact Hin]. intros y [H0 H1]. simpl.
    apply andb_true_iff. split; apply ltb_lt; assumption.
Qed.

(** C6.  For a sorted cut set [c1..cn] inside the page the export plans
    exactly [(0,c1), (c1,c2), ..., (cn,1.0)]: one range more than there are
    cuts, none dropped, and no raster size enters the plan; the empty cut set
    gives [(0, 1.0)]. *)
Theorem plan_slices_exact (cuts : list Q) :
  StronglySorted Qle cuts -> Forall (fun y => 0 < y /\ y < 1)%Q cuts ->
  export_ranges cuts = plan_slices cuts
  /\ plan_slices cuts = combine (0%Q :: cuts) (cuts ++ [1%Q])
  /\ length (plan_slices cuts) = S (length cuts)
  /\ plan_slices [] = [(0%Q, 1%Q)].
Proof.
  intros Hs Hin. repeat split.
  - unfold export_ranges. rewrite export_cuts_id by assumption. reflexivity.
  - rewrite plan_slices_ranges. apply ranges_from_combine.
  - rewrite plan_slices_ranges. apply ranges_from_length.
Qed.

Lemma plan_slices_exact_witness :
  export_ranges [0.3; 0.7] = plan_slices [0.3; 0.7]
  /\ plan_slices [0.3; 0.7] = [(0, 0.3); (0.3, 0.7); (0.7, 1)]%Q
  /\ length (plan_slices [0.3; 0.7]) = 3%nat
  /\ plan_slices [] = [(0%Q, 1%Q)].
Proof.
  apply (plan_slices_exact [0.3; 0.7]).
  - repeat constructor; unfold Qle; simpl; lia.
  - repeat constructor; unfold Qlt; simpl; lia.
Defined.

(* ================================================================== *)
(** * The crop loop *)
(* ================================================================== *)

Lemma crop_step_app (W H : Z) (slices : list box) (r : Q * Q) :
  crop_step W H slices r = slices ++ crop_of W H r.
Proof.
  unfold crop_of, crop_step. destruct (tiny_slice H r); [rewrite app_nil_r|]; reflexivity.
Qed.

Lemma fold_crops (W H : Z) (ranges : list (Q * Q)) (slices : list box) :
  fold_left (crop_step W H) ranges slices = slices ++ flat_map (crop_of W H) ranges.
Proof.
  revert slices. induction ranges as [|r ranges IH]; intro slices; simpl.
  - rewrite app_nil_r. reflexivity.
  - rewrite IH, crop_step_app, <- app_assoc. reflexivity.
Qed.

Lemma export_slices_flat (ranges : list (Q * Q)) (W H : Z) :
  export_slices ranges W H = flat_map (crop_of W H) ranges.
Proof. unfold export_slices. apply (fold_crops W H ranges []). Qed.

Lemma row_px_mono (x y : Q) (H : Z) :
  (0 <= H)%Z -> (0 <= x)%Q -> (x <= y)%Q -> (row_px x H <= row_px y H)%Z.
Proof.
  intros HH Hx Hxy. unfold row_px.
  assert (Hq : (0 <= inject_Z H)%Q) by (change 0%Q with (inject_Z 0); rewrite <- Zle_Qle; exact HH).
  apply int_mono; nra.
Qed.

Lemma row_px_zero (H : Z) : row_px 0 H = 0%Z.
Proof.
  unfold row_px. rewrite (int_comp _ (inject_Z 0)); [apply int_inject_Z | ring].
Qed.

Lemma row_px_one (H : Z) : row_px 1 H = H.
Proof.
  unfold row_px. rewrite (int_comp _ (inject_Z H)); [apply int_inject_Z | ring].
Qed.

(** A slice that is kept is at least two pixel rows high. *)
Lemma kept_height (y0 y1 : Q) (H : Z) :
  (0 <= H)%Z -> (0 <= y0)%Q -> tiny_slice H (y0, y1) = false ->
  (2 <= row_px y1 H - row_px y0 H)%Z.
Proof.
  intros HH H0 Hk. unfold tiny_slice in Hk. apply ltb_ge in Hk.
  assert (Hq : (0 <= inject_Z H)%Q) by (change 0%Q with (inject_Z 0); rewrite <- Zle_Qle; exact HH).
  assert (Ha : (0 <= y0 * inject_Z H)%Q) by nra.
  assert (Hb : (0 <= y1 * inject_Z H)%Q) by nra.
  unfold row_px.
  pose proof (int_le _ Ha) as L0. pose proof (int_lt_succ _ Hb) as U1.
  set (a := Py.int (y0 * inject_Z H)) in *. set (b := Py.int (y1 * inject_Z H)) in *.
  destruct (Z_lt_le_dec (b - a) 2) as [Hlt | Hge]; [exfalso | exact Hge].
  assert (Hle : (b + 1 <= a + 2)%Z) by lia.
  rewrite Zle_Qle, !inject_Z_plus in Hle.
  change (inject_Z 1) with 1%Q in Hle. change (inject_Z 2) with 2%Q in Hle.
  nra.
Qed.

Lemma export_cuts_inside (cuts_y : list Q) :
  Forall (fun y => 0 < y /\ y < 1)%Q (export_cuts cuts_y).
Proof.
  apply Forall_forall. intros y Hy. unfold export_cuts in Hy.
  apply In_sorted, filter_In in Hy. destruct Hy as [_ Hy].
  apply andb_true_iff in Hy. destruct Hy as [H0 H1].
  split; apply ltb_lt; assumption.
Qed.

Lemma export_cuts_ordered (cuts_y : list Q) : StronglySorted Qle (export_cuts cuts_y).
Proof. apply sorted_ordered. Qed.

Lemma ranges_from_fst (start : Q) (cuts : list Q) (r : Q * Q) :
  In r (ranges_from start cuts) -> fst r = start \/ In (fst r) cuts.
Proof.
  revert start. induction cuts as [|y cuts IH]; intros start H; simpl in H.
  - destruct H as [<- | []]. left. reflexivity.
  - destruct H as [<- | H]; [left; reflexivity|].
    right. destruct (IH _ H) as [-> | Hin]; [left; reflexivity | right; exact Hin].
Qed.

Lemma export_ranges_nonneg (cuts_y : list Q) (r : Q * Q) :
  In r (export_ranges cuts_y) -> (0 <= fst r)%Q.
Proof.
  unfold export_ranges. rewrite plan_slices_ranges. intro H.
  apply ranges_from_fst in H. destruct H as [-> | H]; [apply Qle_refl|].
  pose proof (export_cuts_inside cuts_y) as Hin. rewrite Forall_forall in Hin.
  apply Qlt_le_weak, (Hin _ H).
Qed.

Lemma flat_map_crops (W H : Z) (ranges : list (Q * Q)) :
  flat_map (crop_of W H) ranges
  = map (fun r => mkBox 0 (row_px (fst r) H) W (row_px (snd r) H))
        (filter (fun r => negb (tiny_slice H r)) ranges).
Proof.
  induction ranges as [|r ranges IH]; simpl; [reflexivity|].
  rewrite IH. unfold crop_of, crop_step. destruct (tiny_slice H r); reflexivity.
Qed.

Lemma stacked_weaken (lo lo' hi : Z) (bs : list box) :
  (lo' <= lo)%Z -> stacked lo hi bs -> stacked lo' hi bs.
Proof.
  destruct bs as [|b bs]; simpl; intros Hlo H.
  - lia.
  - destruct H as (H1 & H2 & H3). repeat split; try assumption. lia.
Qed.

Lemma stacked_bounds (lo hi : Z) (bs : list box) :
  stacked lo hi bs ->
  (lo <= hi)%Z
  /\ Forall (fun b => lo <= upper b /\ upper b <= lower b /\ lower b <= hi)%Z bs
  /\ (total_height bs <= hi - lo)%Z.
Proof.
  revert lo. induction bs as [|b bs IH]; simpl; intros lo H.
  - repeat split; [exact H | constructor | unfold total_height; simpl; lia].
  - destruct H as (H1 & H2 & H3). destruct (IH _ H3) as (I1 & I2 & I3).
    repeat split.
    + lia.
    + constructor; [lia|]. eapply Forall_impl; [|exact I2]. simpl. intros c Hc. lia.
    + unfold total_height in *. simpl. unfold box_height at 1. lia.
Qed.

Lemma stacked_disjoint (lo hi : Z) (bs : list box) :
  stacked lo hi bs -> ForallOrdPairs (fun a b => lower a <= upper b)%Z bs.
Proof.
  revert lo. induction bs as [|b bs IH]; simpl; intros lo H; [constructor|].
  destruct H as (H1 & H2 & H3). constructor; [|eapply IH, H3].
  destruct (stacked_bounds _ _ _ H3) as (_ & I2 & _).
  eapply Forall_impl; [|exact I2]. simpl. intros c Hc. lia.
Qed.

(** The crops of a plan over ordered cuts are stacked from the row of its
    start to the last row. *)
Lemma crops_stacked (W H : Z) (cuts : list Q) (start : Q) :
  (0 <= H)%Z -> (0 <= start)%Q ->
  StronglySorted Qle (start :: cuts) -> Forall (fun y => y <= 1)%Q (start :: cuts) ->
  stacked (row_px start H) (row_px 1 H) (flat_map (crop_of W H) (ranges_from start cuts)).
Proof.
  intros HH. revert start. induction cuts as [|y cuts IH]; intros start H0 Hs H1.
  - inversion H1 as [|? ? Hs1 _]; subst.
    assert (Hm : (row_px start H <= row_px 1 H)%Z) by (apply row_px_mono; assumption).
    simpl. rewrite app_nil_r. unfold crop_of, crop_step.
    destruct (tiny_slice H (start, 1%Q)); simpl; [exact Hm|].
    repeat split; lia.
  - inversion Hs as [|? ? Hs' Hall]; subst. inversion Hall as [|? ? Hsy _]; subst.
    inversion H1 as [|? ? _ H1']; subst.
    assert (Hy : (0 <= y)%Q) by (eapply Qle_trans; eassumption).
    assert (Hm : (row_px start H <= row_px y H)%Z) by (apply row_px_mono; assumption).
    specialize (IH y Hy Hs' H1').
    simpl. unfold crop_of at 1, crop_step.
    destruct (tiny_slice H (start, y)); simpl.
    + eapply stacked_weaken; eassumption.
    + repeat split; [lia | exact Hm | exact IH].
Qed.

Lemma export_crops_stacked (cuts_y : list Q) (W H : Z) :
  (0 <= H)%Z -> stacked 0 H (export_slices (export_ranges cuts_y) W H).
Proof.
  intro HH. rewrite export_slices_flat. unfold export_ranges. rewrite plan_slices_ranges.
  rewrite <- (row_px_zero H) at 1. rewrite <- (row_px_one H) at 2.
  pose proof (export_cuts_inside cuts_y) as Hin.
  apply crops_stacked; [exact HH | apply Qle_refl | |].
  - constructor; [apply export_cuts_ordered|].
    eapply Forall_impl; [|exact Hin]. simpl. intros y [Hy _]. apply Qlt_le_weak, Hy.
  - constructor; [unfold Qle; simpl; lia|].
    eapply Forall_impl; [|exact Hin]. simpl. intros y [_ Hy]. apply Qlt_le_weak, Hy.
Qed.

(** C8.  For every cut list of the session and every raster height, the
    crops kept by the export lie inside the raster, no two of them overlap
    (each ends at or before the row where every later one starts), and their
    heights sum to at most the raster height. *)
Theorem export_crops_disjoint (cuts_y : list Q) (export_W export_H : Z) :
  (0 <= export_H)%Z ->
  let crops := export_slices (export_ranges cuts_y) export_W export_H in
  ForallOrdPairs (fun a b => lower a <= upper b)%Z crops
  /\ Forall (fun b => 0 <= upper b /\ upper b <= lower b /\ lower b <= export_H)%Z crops
  /\ (total_height crops <= export_H)%Z.
Proof.
  intros HH crops. pose proof (export_crops_stacked cuts_y export_W export_H HH) as Hst.
  fold crops in Hst. destruct (stacked_bounds _ _ _ Hst) as (_ & Hb & Ht).
  repeat split; [eapply stacked_disjoint, Hst | exact Hb | lia].
Qed.

Lemma export_crops_disjoint_witness :
  let crops := export_slices (export_ranges [0.7; 0.3; 0.305]) 80 100 in
  ForallOrdPairs (fun a b => lower a <= upper b)%Z crops
  /\ Forall (fun b => 0 <= upper b /\ upper b <= lower b /\ lower b <= 100)%Z crops
  /\ (total_height crops <= 100)%Z.
Proof.
  apply (export_crops_disjoint [0.7; 0.3; 0.305] 80 100). lia.
Defined.

(* ================================================================== *)
(** * The click handler *)
(* ================================================================== *)

Lemma scale_bounds (W : Z) : (0 < W)%Z -> (0 < scale W /\ scale W <= 1)%Q.
Proof.
  intro HW. unfold scale, display_width.
  assert (Hw : (0 < inject_Z W)%Q) by (change 0%Q with (inject_Z 0); rewrite <- Zlt_Qlt; exact HW).
  assert (Hm : (0 < Z.min 1600 W <= W)%Z) by lia.
  destruct Hm as [Hm0 Hm1]. rewrite Zlt_Qlt in Hm0. rewrite Zle_Qle in Hm1.
  change (inject_Z 0) with 0%Q in Hm0.
  set (m := inject_Z (Z.min 1600 W)) in *. set (w := inject_Z W) in *.
  split.
  - apply Qlt_shift_div_l; [exact Hw | lra].
  - apply Qle_shift_div_r; [exact Hw | lra].
Qed.

(* ================================================================== *)
(** * The budget search *)
(* ================================================================== *)

Lemma next_dpi_quot (d : Z) : next_dpi d = Z.max 10 (Z.quot (d * 80) 100).
Proof. reflexivity. Qed.

Lemma next_dpi_floor (d : Z) : (10 <= next_dpi d)%Z.
Proof. unfold next_dpi. lia. Qed.

Lemma next_dpi_low (d : Z) : (d <= 10)%Z -> next_dpi d = 10%Z.
Proof.
  intro H. rewrite next_dpi_quot.
  assert (Hq : (Z.quot (d * 80) 100 <= Z.quot 800 100)%Z) by (apply Z.quot_le_mono; lia).
  change (Z.quot 800 100) with 8%Z in Hq. lia.
Qed.

Lemma next_dpi_less (d : Z) : (10 < d)%Z -> (next_dpi d < d)%Z.
Proof.
  intro H. rewrite next_dpi_quot.
  assert (Hq : (Z.quot (d * 80) 100 < d)%Z).
  { rewrite Z.quot_div_nonneg by lia. apply Z.div_lt_upper_bound; lia. }
  lia.
Qed.

Lemma next_q_floor (q : Z) : (30 <= next_q q)%Z.
Proof. unfold next_q. lia. Qed.

Lemma dpi_scalings_aux_le (fuel : nat) (d : Z) : (dpi_scalings_aux fuel d <= fuel)%nat.
Proof.
  revert d. induction fuel as [|f IH]; intro d; simpl; [lia|].
  destruct (d <=? 10)%Z; [lia|]. specialize (IH (next_dpi d)). lia.
Qed.

Lemma dpi_scalings_aux_fuel (f1 f2 : nat) (d : Z) :
  (Z.to_nat d <= f1)%nat -> (Z.to_nat d <= f2)%nat ->
  dpi_scalings_aux f1 d = dpi_scalings_aux f2 d.
Proof.
  revert f2 d. induction f1 as [|f1 IH]; intros f2 d H1 H2.
  - destruct f2 as [|f2]; [reflexivity|]. simpl.
    destruct (d <=? 10)%Z eqn:E; [reflexivity|]. apply Z.leb_gt in E. lia.
  - simpl. destruct (d <=? 10)%Z eqn:E.
    + destruct f2; simpl; [reflexivity | rewrite E; reflexivity].
    + apply Z.leb_gt in E. destruct f2 as [|f2]; [lia|]. simpl. rewrite (proj2 (Z.leb_gt _ _) E).
      f_equal. pose proof (next_dpi_less d E). pose proof (next_dpi_floor d).
      apply IH; lia.
Qed.

Lemma dpi_scalings_floor (d : Z) : (d <= 10)%Z -> dpi_scalings d = O.
Proof.
  intro H. unfold dpi_scalings. destruct (Z.to_nat d); simpl; [reflexivity|].
  rewrite (proj2 (Z.leb_le _ _) H). reflexivity.
Qed.

Lemma dpi_scalings_step (d : Z) :
  (10 < d)%Z -> dpi_scalings d = S (dpi_scalings (next_dpi d)).
Proof.
  intro H. unfold dpi_scalings at 1.
  destruct (Z.to_nat d) as [|f] eqn:E; [lia|]. simpl.
  rewrite (proj2 (Z.leb_gt _ _) H). f_equal.
  pose proof (next_dpi_less d H). pose proof (next_dpi_floor d).
  apply dpi_scalings_aux_fuel; lia.
Qed.

Lemma q_decrements_aux_fuel (f1 f2 : nat) (q : Z) :
  (Z.to_nat q <= f1)%nat -> (Z.to_nat q <= f2)%nat ->
  q_decrements_aux f1 q = q_decrements_aux f2 q.
Proof.
  revert f2 q. induction f1 as [|f1 IH]; intros f2 q H1 H2.
  - destruct f2 as [|f2]; [reflexivity|]. simpl.
    destruct (q <=? 30)%Z eqn:E; [reflexivity|]. apply Z.leb_gt in E. lia.
  - simpl. destruct (q <=? 30)%Z eqn:E.
    + destruct f2; simpl; [reflexivity | rewrite E; reflexivity].
    + apply Z.leb_gt in E. destruct f2 as [|f2]; [lia|]. simpl. rewrite (proj2 (Z.leb_gt _ _) E).
      f_equal. apply IH; unfold next_q; lia.
Qed.

Lemma q_decrements_floor (q : Z) : (q <= 30)%Z -> q_decrements q = O.
Proof.
  intro H. unfold q_decrements. destruct (Z.to_nat q); simpl; [reflexivity|].
  rewrite (proj2 (Z.leb_le _ _) H). reflexivity.
Qed.

Lemma q_decrements_step (q : Z) :
  (30 < q)%Z -> q_decrements q = S (q_decrements (next_q q)).
Proof.
  intro H. unfold q_decrements at 1.
  destruct (Z.to_nat q) as [|f] eqn:E; [lia|]. simpl.
  rewrite (proj2 (Z.leb_gt _ _) H). f_equal.
  apply q_decrements_aux_fuel; unfold next_q; lia.
Qed.

Lemma q_decrements_aux_le (fuel : nat) (q : Z) : (q_decrements_aux fuel q <= fuel)%nat.
Proof.
  revert q. induction fuel as [|f IH]; intro q; simpl; [lia|].
  destruct (q <=? 30)%Z; [lia|]. specialize (IH (next_q q)). lia.
Qed.

Lemma degrade_floors (p : Z * Z) : at_floors (degrade p).
Proof. split; simpl; [apply next_dpi_floor | apply next_q_floor]. Qed.

Lemma degrade_not_above (p : Z * Z) : at_floors p -> not_above p (degrade p).
Proof.
  destruct p as [d q]. intros [Hd Hq]. simpl in *. split; simpl.
  - destruct (Z.eq_dec d 10) as [-> | Hne]; [reflexivity|].
    pose proof (next_dpi_less d). lia.
  - unfold next_q. lia.
Qed.

(** The floors are the only pair a degrade step leaves alone. *)
Lemma degrade_fixed (p : Z * Z) :
  at_floors p -> (degrade p = p <-> steps_to_floor p = O).
Proof.
  destruct p as [d q]. intros [Hd Hq]. simpl in *. unfold steps_to_floor, degrade. simpl.
  split.
  - intro E. injection E as Ed Eq.
    assert (d = 10)%Z by (pose proof (next_dpi_less d); lia).
    assert (q = 30)%Z by (unfold next_q in Eq; lia).
    subst. reflexivity.
  - intro E.
    assert (Hd0 : dpi_scalings d = O) by lia.
    assert (Hq0 : q_decrements q = O) by lia.
    assert (d = 10)%Z.
    { destruct (Z.eq_dec d 10); [assumption|]. rewrite dpi_scalings_step in Hd0 by lia. discriminate. }
    assert (q = 30)%Z.
    { destruct (Z.eq_dec q 30); [assumption|]. rewrite q_decrements_step in Hq0 by lia. discriminate. }
    subst. reflexivity.
Qed.

Lemma degrade_steps (p : Z * Z) :
  at_floors p -> steps_to_floor (degrade p) = pred (steps_to_floor p).
Proof.
  destruct p as [d q]. intros [Hd Hq]. simpl in *. unfold steps_to_floor, degrade. simpl.
  assert (Ha : dpi_scalings (next_dpi d) = pred (dpi_scalings d)).
  { destruct (Z.eq_dec d 10) as [-> | Hne]; [reflexivity|].
    rewrite (dpi_scalings_step d) by lia. reflexivity. }
  assert (Hb : q_decrements (next_q q) = pred (q_decrements q)).
  { destruct (Z.eq_dec q 30) as [-> | Hne]; [reflexivity|].
    rewrite (q_decrements_step q) by lia. reflexivity. }
  rewrite Ha, Hb. lia.
Qed.

Lemma iter_degrade_floors (p : Z * Z) (i : nat) :
  at_floors p -> at_floors (Nat.iter i degrade p).
Proof. intro H. destruct i; simpl; [exact H | apply degrade_floors]. Qed.

Lemma iter_degrade_steps (p : Z * Z) (i : nat) :
  at_floors p -> steps_to_floor (Nat.iter i degrade p) = (steps_to_floor p - i)%nat.
Proof.
  intro H. induction i as [|i IH]; simpl; [lia|].
  rewrite degrade_steps by (apply iter_degrade_floors, H). rewrite IH. lia.
Qed.

(** Once a step changes nothing, no later step does. *)
Lemma iter_degrade_fixed (p : Z * Z) (i j : nat) :
  degrade (Nat.iter i degrade p) = Nat.iter i degrade p -> (i <= j)%nat ->
  Nat.iter j degrade p = Nat.iter i degrade p.
Proof.
  intros E Hij. induction Hij as [|j Hij IH]; [reflexivity|].
  simpl. rewrite IH. exact E.
Qed.

Section BudgetFacts.

Context {B : Type}.
Variable export : Z -> Z -> B.
Variable len : B -> Z.

Local Abbreviation loop := (budget_loop export len).
Local Abbreviation step := (retry export).
Local Abbreviation over := (fun s : search B => over_target len (out_bytes s)).

Lemma iter_step_shift (n : nat) (s : search B) :
  Nat.iter n step (step s) = Nat.iter (S n) step s.
Proof. induction n as [|n IH]; simpl; [reflexivity | rewrite IH; reflexivity]. Qed.

Lemma pair_of_step (s : search B) : pair_of (step s) = degrade (pair_of s).
Proof. reflexivity. Qed.

Lemma pair_of_iter (n : nat) (s : search B) :
  pair_of (Nat.iter n step s) = Nat.iter n degrade (pair_of s).
Proof. induction n as [|n IH]; simpl; [reflexivity | rewrite pair_of_step, IH; reflexivity]. Qed.

(** After a retry the loop is stalled exactly when the step changed nothing. *)
Lemma stalled_step (s : search B) :
  stalled (step s) = true <-> degrade (pair_of s) = pair_of s.
Proof.
  unfold stalled, retry, pair_of, degrade. simpl.
  rewrite andb_true_iff, !Z.eqb_eq. split.
  - intros [-> ->]. reflexivity.
  - intro E. injection E as -> ->. split; reflexivity.
Qed.

Lemma out_bytes_step (s : search B) :
  out_bytes (step s) = export (fst (degrade (pair_of s))) (snd (degrade (pair_of s))).
Proof. reflexivity. Qed.

Lemma calls_step (s : search B) : calls (step s) = calls s ++ [degrade (pair_of s)].
Proof. reflexivity. Qed.

Lemma loop_unfold (fuel : nat) (s : search B) :
  loop (S fuel) s
  = if over_target len (out_bytes s)
    then if stalled s then Some s else loop fuel (step s)
    else Some s.
Proof. reflexivity. Qed.

(** More fuel does not change a result. *)
Lemma loop_fuel_mono (f f' : nat) (s r : search B) :
  loop f s = Some r -> (f <= f')%nat -> loop f' s = Some r.
Proof.
  revert f' s. induction f as [|f IH]; intros f' s H Hle.
  - simpl in H. destruct f'; simpl; destruct (over_target len (out_bytes s)); congruence.
  - destruct f' as [|f']; [lia|]. simpl in *.
    destruct (over_target len (out_bytes s)); [|exact H].
    destruct (stalled s); [exact H|]. apply IH; [exact H | lia].
Qed.

(** What the loop returns is the state after some number of retries, each
    made over target and not stalled; it stops under target or stalled. *)
Lemma loop_inv (fuel : nat) (s r : search B) :
  loop fuel s = Some r ->
  exists n, r = Nat.iter n step s
    /\ (forall i, (i < n)%nat ->
          over (Nat.iter i step s) = true /\ stalled (Nat.iter i step s) = false)
    /\ (over r = false \/ stalled r = true).
Proof.
  revert s. induction fuel as [|f IH]; intros s H; simpl in H.
  - destruct (over_target len (out_bytes s)) eqn:E; [discriminate|].
    injection H as <-. exists O. repeat split; [lia | lia | left; exact E].
  - destruct (over_target len (out_bytes s)) eqn:E.
    + destruct (stalled s) eqn:F.
      * injection H as <-. exists O. repeat split; [lia | lia | right; exact F].
      * destruct (IH _ H) as (n & Hr & Hi & Hend).
        exists (S n). rewrite <- iter_step_shift. repeat split.
        -- exact Hr.
        -- destruct i as [|i]; [exact E | rewrite <- iter_step_shift; apply Hi; lia].
        -- destruct i as [|i]; [exact F | rewrite <- iter_step_shift; apply Hi; lia].
        -- exact Hend.
    + injection H as <-. exists O. repeat split; [lia | lia | left; exact E].
Qed.

(** The loop, followed for [N] retries. *)
Lemma loop_reach (N : nat) (s : search B) (fuel : nat) :
  (N <= fuel)%nat ->
  (forall i, (i < N)%nat ->
     over (Nat.iter i step s) = true /\ stalled (Nat.iter i step s) = false) ->
  over (Nat.iter N step s) = false ->
  loop fuel s = Some (Nat.iter N step s).
Proof.
  revert s fuel. induction N as [|N IH]; intros s fuel Hf Hi Hend.
  - simpl in Hend. destruct fuel; simpl; rewrite Hend; reflexivity.
  - destruct fuel as [|fuel]; [lia|]. simpl budget_loop.
    destruct (Hi O ltac:(lia)) as [E F]. simpl in E, F. rewrite E, F.
    rewrite <- iter_step_shift. apply IH; [lia | | rewrite iter_step_shift; exact Hend].
    intros i Hlt. rewrite iter_step_shift. apply Hi. lia.
Qed.

(** From a pair at its floors the loop ends within [steps_to_floor + 2]
    entries of its body. *)
Lemma loop_total_floors (m : nat) (s : search B) (fuel : nat) :
  at_floors (pair_of s) -> (steps_to_floor (pair_of s) <= m)%nat -> (m + 2 <= fuel)%nat ->
  exists r, loop fuel s = Some r.
Proof.
  revert s fuel. induction m as [|m IH]; intros s fuel Hfl Hm Hf;
    (destruct fuel as [|fuel]; [lia|]); simpl;
    destruct (over_target len (out_bytes s)); eauto;
    destruct (stalled s); eauto.
  - assert (Hfix : degrade (pair_of s) = pair_of s) by (apply degrade_fixed; [exact Hfl | lia]).
    destruct fuel as [|fuel]; [lia|]. simpl.
    destruct (over_target len _); [|eauto].
    rewrite (proj2 (stalled_step s) Hfix). eauto.
  - apply IH.
    + rewrite pair_of_step. apply degrade_floors.
    + rewrite pair_of_step, degrade_steps by exact Hfl. lia.
    + lia.
Qed.

End BudgetFacts.

Lemma not_above_trans (a b c : Z * Z) : not_above a b -> not_above b c -> not_above a c.
Proof. unfold not_above. intros [H1 H2] [H3 H4]. split; lia. Qed.

Lemma strongly_sorted_seq {A : Type} (R : A -> A -> Prop) (f : nat -> A) :
  (forall a b c, R a b -> R b c -> R a c) ->
  (forall i, R (f i) (f (S i))) ->
  forall n a, StronglySorted R (map f (seq a n)).
Proof.
  intros Htrans Hstep.
  assert (Hle : forall k i, R (f i) (f (S (k + i)))).
  { induction k as [|k IH]; intro i; simpl; [apply Hstep|].
    eapply Htrans; [apply IH | apply Hstep]. }
  induction n as [|n IH]; intro a; simpl; constructor; [apply IH|].
  apply Forall_forall. intros x Hx. apply in_map_iff in Hx.
  destruct Hx as (j & <- & Hj). apply in_seq in Hj.
  replace j with (S ((j - S a) + a)) by lia. apply Hle.
Qed.

Lemma nth_call_floors (dpi jpg_quality : Z) (i : nat) :
  at_floors (nth_call dpi jpg_quality (S i)).
Proof. unfold nth_call. simpl. apply degrade_floors. Qed.

Lemma nth_call_step (dpi jpg_quality : Z) (i : nat) :
  (10 <= dpi)%Z -> (30 <= jpg_quality)%Z ->
  not_above (nth_call dpi jpg_quality i) (nth_call dpi jpg_quality (S i)).
Proof.
  intros Hd Hq. destruct i as [|i].
  - unfold nth_call, not_above. simpl. split.
    + destruct (Z.eq_dec dpi 10) as [-> | Hne]; [reflexivity|].
      pose proof (next_dpi_less dpi). lia.
    + unfold next_q. lia.
  - change (nth_call dpi jpg_quality (S (S i)))
      with (degrade (nth_call dpi jpg_quality (S i))).
    apply degrade_not_above, nth_call_floors.
Qed.

Lemma scalings_after_step (d : Z) : (dpi_scalings (next_dpi d) <= Z.to_nat d)%nat.
Proof.
  destruct (Z_le_gt_dec d 10) as [Hle | Hgt].
  - rewrite next_dpi_low by exact Hle. rewrite dpi_scalings_floor; lia.
  - pose proof (next_dpi_less d ltac:(lia)).
    unfold dpi_scalings. pose proof (dpi_scalings_aux_le (Z.to_nat (next_dpi d)) (next_dpi d)). lia.
Qed.

Lemma decrements_after_step (q : Z) :
  (q_decrements (next_q (Z.min q 85)) <= Z.to_nat q)%nat.
Proof.
  destruct (Z_le_gt_dec (Z.min q 85) 40) as [Hle | Hgt].
  - rewrite q_decrements_floor; [lia | unfold next_q; lia].
  - unfold q_decrements.
    pose proof (q_decrements_aux_le (Z.to_nat (next_q (Z.min q 85))) (next_q (Z.min q 85))).
    unfold next_q in *. lia.
Qed.

Section BudgetRun.

Context {B : Type}.
Variable export : Z -> Z -> B.
Variable len : B -> Z.
Variables dpi jpg_quality : Z.

Local Abbreviation init := (budget_init export dpi jpg_quality).
Local Abbreviation run n := (Nat.iter n (retry export) (budget_init export dpi jpg_quality)).
Local Abbreviation call i := (nth_call dpi jpg_quality i).

Lemma run_pair (n : nat) :
  pair_of (run n) = Nat.iter n degrade (dpi, Z.min jpg_quality 85).
Proof. rewrite pair_of_iter. reflexivity. Qed.

Lemma run_calls (n : nat) : calls (run n) = map (nth_call dpi jpg_quality) (seq 0 (S n)).
Proof.
  induction n as [|n IH]; [reflexivity|].
  rewrite seq_S, map_app. simpl Nat.iter. rewrite calls_step, IH. f_equal.
  rewrite run_pair. reflexivity.
Qed.

Lemma run_out (n : nat) : out_bytes (run n) = export (fst (call n)) (snd (call n)).
Proof.
  destruct n as [|n]; [reflexivity|].
  simpl Nat.iter. rewrite out_bytes_step, run_pair. reflexivity.
Qed.

Lemma run_stalled_init : stalled init = false.
Proof. reflexivity. Qed.

Lemma run_stalled (n : nat) :
  stalled (run (S n)) = true
  <-> degrade (Nat.iter n degrade (dpi, Z.min jpg_quality 85))
      = Nat.iter n degrade (dpi, Z.min jpg_quality 85).
Proof. simpl Nat.iter. rewrite stalled_step, run_pair. reflexivity. Qed.

(** The search returns for every preset value. *)
Lemma budget_search_total :
  exists r, budget_search export len dpi jpg_quality = Some r.
Proof.
  unfold budget_search, budget_fuel. rewrite loop_unfold.
  destruct (over_target len _); [|eauto].
  rewrite run_stalled_init.
  apply (loop_total_floors export len (Z.to_nat dpi + Z.to_nat jpg_quality)).
  - rewrite pair_of_step. apply degrade_floors.
  - rewrite pair_of_step. unfold steps_to_floor. simpl.
    pose proof (scalings_after_step dpi). pose proof (decrements_after_step jpg_quality). lia.
  - lia.
Qed.

End BudgetRun.

Lemma last_map_seq {A : Type} (f : nat -> A) (n : nat) (d : A) :
  last (map f (seq 0 (S n))) d = f n.
Proof. rewrite seq_S, map_app. simpl. apply last_last. Qed.

(** What the search returns, read off the loop invariant: the state after
    [n] retries from the initial one. *)
Lemma budget_search_run {B : Type} (export : Z -> Z -> B) (len : B -> Z)
  (dpi jpg_quality : Z) :
  exists n, budget_search export len dpi jpg_quality
            = Some (Nat.iter n (retry export) (budget_init export dpi jpg_quality))
    /\ (forall i, (i < n)%nat ->
          over_target len (out_bytes (Nat.iter i (retry export)
                                        (budget_init export dpi jpg_quality))) = true
          /\ stalled (Nat.iter i (retry export) (budget_init export dpi jpg_quality)) = false)
    /\ (over_target len (out_bytes (Nat.iter n (retry export)
                                      (budget_init export dpi jpg_quality))) = false
        \/ stalled (Nat.iter n (retry export) (budget_init export dpi jpg_quality)) = true).
Proof.
  destruct (budget_search_total export len dpi jpg_quality) as [r Hr].
  destruct (loop_inv export len _ _ _ Hr) as (n & -> & Hi & Hend).
  exists n. repeat split; try assumption; apply Hi; assumption.
Qed.

(** The loop makes exactly [N] retries when the first [N] outputs are over
    target and the next one is not. *)
Lemma budget_search_count {B : Type} (export : Z -> Z -> B) (len : B -> Z)
  (dpi jpg_quality : Z) (n N : nat) :
  (forall i, (i < n)%nat ->
     over_target len (out_bytes (Nat.iter i (retry export)
                                   (budget_init export dpi jpg_quality))) = true
     /\ stalled (Nat.iter i (retry export) (budget_init export dpi jpg_quality)) = false) ->
  (over_target len (out_bytes (Nat.iter n (retry export)
                                 (budget_init export dpi jpg_quality))) = false
   \/ stalled (Nat.iter n (retry export) (budget_init export dpi jpg_quality)) = true) ->
  (forall i, (i < N)%nat ->
     over_target len (export (fst (nth_call dpi jpg_quality i))
                             (snd (nth_call dpi jpg_quality i))) = true) ->
  over_target len (export (fst (nth_call dpi jpg_quality N))
                          (snd (nth_call dpi jpg_quality N))) = false ->
  n = N.
Proof.
  intros Hi Hend Hover Hunder.
  destruct (Nat.lt_trichotomy n N) as [Hlt | [Heq | Hgt]]; [exfalso | exact Heq | exfalso].
  - (* the loop stopped while over target: it had stalled, so the pairs no
       longer change and the [N]-th output is over target too *)
    pose proof (Hover n Hlt) as Hn. rewrite <- run_out in Hn.
    destruct Hend as [Hend | Hend]; [congruence|].
    destruct n as [|n]; [simpl in Hend; discriminate|].
    apply run_stalled in Hend.
    assert (E : nth_call dpi jpg_quality N = nth_call dpi jpg_quality (S n)).
    { destruct N as [|N]; [lia|]. unfold nth_call.
      rewrite (iter_degrade_fixed _ n (S N) Hend) by lia.
      simpl. rewrite Hend. reflexivity. }
    rewrite E, <- run_out in Hunder. congruence.
  - destruct (Hi N Hgt) as [HN _]. rewrite run_out in HN. congruence.
Qed.

(** C3.  From a preset with [dpi >= 10] and [jpg_quality >= 30] the search
    returns, and the pairs it hands to the export, in order, are
    [(dpi, jpg_quality)], then [(max(10, int(dpi * 0.80)),
    max(30, min(jpg_quality, 85) - 10))], then each pair degraded by
    [dpi <- max(10, int(dpi * 0.80))], [jpg_q <- max(30, jpg_q - 10)]: a
    sequence in which no later pair has more DPI or more quality than an
    earlier one.  When the first [N] outputs are over target and the next one
    is not, the export is invoked exactly [N + 1] times. *)
Theorem budget_search_monotone {B : Type} (export : Z -> Z -> B) (len : B -> Z)
  (dpi jpg_quality : Z) :
  (10 <= dpi)%Z -> (30 <= jpg_quality)%Z ->
  exists r, budget_search export len dpi jpg_quality = Some r
    /\ calls r = map (nth_call dpi jpg_quality) (seq 0 (length (calls r)))
    /\ nth_call dpi jpg_quality 0 = (dpi, jpg_quality)
    /\ nth_call dpi jpg_quality 1
       = (Z.max 10 (Py.int (inject_Z dpi * 0.80)), Z.max 30 (Z.min jpg_quality 85 - 10))
    /\ (forall i,
          nth_call dpi jpg_quality (S (S i))
          = (Z.max 10 (Py.int (inject_Z (fst (nth_call dpi jpg_quality (S i))) * 0.80)),
             Z.max 30 (snd (nth_call dpi jpg_quality (S i)) - 10)))
    /\ StronglySorted not_above (calls r)
    /\ (forall N,
          (forall i, (i < N)%nat ->
             over_target len (export (fst (nth_call dpi jpg_quality i))
                                     (snd (nth_call dpi jpg_quality i))) = true) ->
          over_target len (export (fst (nth_call dpi jpg_quality N))
                                  (snd (nth_call dpi jpg_quality N))) = false ->
          length (calls r) = S N /\ retries r = N).
Proof.
  intros Hd Hq.
  destruct (budget_search_run export len dpi jpg_quality) as (n & Hr & Hi & Hend).
  eexists. split; [exact Hr|].
  assert (Hcalls := run_calls export dpi jpg_quality n).
  assert (Hlen : length (calls (Nat.iter n (retry export) (budget_init export dpi jpg_quality)))
                 = S n) by (rewrite Hcalls, length_map, length_seq; reflexivity).
  split; [rewrite Hlen; exact Hcalls|].
  split; [reflexivity|]. split; [reflexivity|]. split; [intro i; reflexivity|].
  split.
  - rewrite Hcalls. apply strongly_sorted_seq.
    + apply not_above_trans.
    + intro i. apply nth_call_step; assumption.
  - intros N Hover Hunder.
    assert (E : n = N) by (eapply budget_search_count; eassumption).
    unfold retries. rewrite Hlen, E. split; reflexivity.
Qed.

(** The Gradescope preset on a document whose output weighs 0.8 MB per DPI:
    three retries bring it under 100 MB. *)
Lemma budget_search_monotone_witness :
  let export := fun d _ : Z => (d * 800000)%Z in
  let len := fun n : Z => n in
  exists r, budget_search export len 220 80 = Some r
    /\ calls r = map (nth_call 220 80) (seq 0 (length (calls r)))
    /\ nth_call 220 80 0 = (220, 80)%Z
    /\ nth_call 220 80 1
       = (Z.max 10 (Py.int (inject_Z 220 * 0.80)), Z.max 30 (Z.min 80 85 - 10))
    /\ (forall i,
          nth_call 220 80 (S (S i))
          = (Z.max 10 (Py.int (inject_Z (fst (nth_call 220 80 (S i))) * 0.80)),
             Z.max 30 (snd (nth_call 220 80 (S i)) - 10)))
    /\ StronglySorted not_above (calls r)
    /\ (forall N,
          (forall i, (i < N)%nat ->
             over_target len (export (fst (nth_call 220 80 i)) (snd (nth_call 220 80 i)))
             = true) ->
          over_target len (export (fst (nth_call 220 80 N)) (snd (nth_call 220 80 N)))
          = false ->
          length (calls r) = S N /\ retries r = N).
Proof.
  apply (budget_search_monotone (fun d _ : Z => (d * 800000)%Z) (fun n : Z => n) 220 80); lia.
Defined.

(** C2, as stated, fails by one iteration: on a document that stays over
    target the Gradescope preset takes 13 scalings to bring 220 DPI to the
    floor 10, and the loop makes 14 retries, the last one with the pair
    [(10, 30)] it had already tried. *)
Lemma budget_retries_exceed_scalings :
  let export := fun _ _ : Z => 200000000%Z in
  let len := fun n : Z => n in
  option_map (@calls Z) (export_clicked export len Gradescope)
  = Some [(220, 80); (176, 70); (140, 60); (112, 50); (89, 40); (71, 30); (56, 30);
          (44, 30); (35, 30); (28, 30); (22, 30); (17, 30); (13, 30); (10, 30);
          (10, 30)]%Z
  /\ option_map retries (export_clicked export len Gradescope) = Some 14%nat
  /\ dpi_scalings 220 = 13%nat
  /\ ~ (14 <= dpi_scalings 220)%nat.
Proof.
  split; [vm_compute; reflexivity|]. split; [vm_compute; reflexivity|].
  split; [vm_compute; reflexivity|]. vm_compute. lia.
Qed.

(** C2, amended.  For every export and every preset value the search
    returns (with the fuel given, and with any larger one), having stopped
    either at or under target or stalled, the pair equal to the one before;
    what it returns is the output of the last export made.  From
    [dpi >= 10] and [jpg_quality >= 30] the number of retries is at most one
    more than the number of degrade steps that bring both the DPI and the
    capped quality to their floors. *)
Theorem budget_search_terminates {B : Type} (export : Z -> Z -> B) (len : B -> Z)
  (dpi jpg_quality : Z) :
  exists r, budget_search export len dpi jpg_quality = Some r
    /\ (forall fuel, (budget_fuel dpi jpg_quality <= fuel)%nat ->
          budget_loop export len fuel (budget_init export dpi jpg_quality) = Some r)
    /\ (over_target len (out_bytes r) = false \/ stalled r = true)
    /\ out_bytes r = export (fst (last (calls r) (0, 0)%Z)) (snd (last (calls r) (0, 0)%Z))
    /\ ((10 <= dpi)%Z -> (30 <= jpg_quality)%Z ->
        (retries r
         <= Nat.max (dpi_scalings dpi) (q_decrements (Z.min jpg_quality 85)) + 1)%nat).
Proof.
  destruct (budget_search_run export len dpi jpg_quality) as (n & Hr & Hi & Hend).
  eexists. split; [exact Hr|].
  assert (Hcalls := run_calls export dpi jpg_quality n).
  split; [|split; [exact Hend|split]].
  - intros fuel Hf. eapply loop_fuel_mono; [exact Hr | exact Hf].
  - rewrite Hcalls, last_map_seq. apply run_out.
  - intros Hd Hq. unfold retries. rewrite Hcalls, length_map, length_seq. simpl.
    destruct n as [|[|n]]; [lia | lia |].
    destruct (Hi (S n) ltac:(lia)) as [_ Hns].
    assert (Hfl : at_floors (dpi, Z.min jpg_quality 85)) by (split; simpl; lia).
    assert (Hne : steps_to_floor (Nat.iter n degrade (dpi, Z.min jpg_quality 85)) <> O).
    { intro E. apply degrade_fixed in E; [|apply iter_degrade_floors, Hfl].
      apply (run_stalled export) in E. congruence. }
    rewrite iter_degrade_steps in Hne by exact Hfl.
    unfold steps_to_floor in Hne. simpl in Hne. lia.
Qed.

Lemma budget_search_terminates_witness :
  let export := fun _ _ : Z => 200000000%Z in
  let len := fun n : Z => n in
  exists r, budget_search export len 220 80 = Some r
    /\ (forall fuel, (budget_fuel 220 80 <= fuel)%nat ->
          budget_loop export len fuel (budget_init export 220 80) = Some r)
    /\ (over_target len (out_bytes r) = false \/ stalled r = true)
    /\ out_bytes r = export (fst (last (calls r) (0, 0)%Z)) (snd (last (calls r) (0, 0)%Z))
    /\ ((10 <= 220)%Z -> (30 <= 80)%Z ->
        (retries r <= Nat.max (dpi_scalings 220) (q_decrements (Z.min 80 85)) + 1)%nat).
Proof.
  exact (budget_search_terminates (fun _ _ : Z => 200000000%Z) (fun n : Z => n) 220 80).
Defined.

(* ================================================================== *)
(** * The pixel ceiling of the export *)
(* ================================================================== *)

Lemma effective_dpi_cases (doc : document) (dpi_value : Z) :
  ((max_export_pixels < requested_pixels doc dpi_value)%Z ->
     effective_dpi doc dpi_value
     = Z.max 72 (Py.int_mul_sqrt dpi_value max_export_pixels
                                 (requested_pixels doc dpi_value)))
  /\ ((requested_pixels doc dpi_value <= max_export_pixels)%Z ->
      effective_dpi doc dpi_value = dpi_value).
Proof.
  unfold effective_dpi, requested_pixels. split; intro H.
  - rewrite (proj2 (Z.gtb_lt _ _) H). reflexivity.
  - destruct (_ >? _)%Z eqn:E; [|reflexivity]. apply Z.gtb_lt in E. lia.
Qed.

(** C10, as stated for every export invocation, fails: the sixth retry of
    the Gradescope preset asks for 56 DPI; on a Letter page that raster is far
    below the ceiling, no reduction happens, and the page is exported at 56
    DPI. *)
Lemma export_dpi_below_72 :
  let letter := mkDocument 612 792 (fun d => (export_px 612 d, export_px 792 d)) in
  nth_call 220 80 6 = (56, 30)%Z
  /\ requested_pixels letter 56 = 293216%Z
  /\ effective_dpi letter 56 = 56%Z
  /\ ~ (72 <= effective_dpi letter 56)%Z.
Proof.
  split; [vm_compute; reflexivity|]. split; [vm_compute; reflexivity|].
  split; [vm_compute; reflexivity|]. vm_compute. intro H. apply H. reflexivity.
Qed.

(** C10, amended.  Whenever the raster the requested DPI asks for exceeds
    the ceiling, the effective DPI is the maximum of 72 and the
    square-root-scaled value, hence at least 72 whatever the page size; when
    the ceiling is not exceeded the requested DPI is used as it is. *)
Theorem effective_dpi_floor (doc : document) (dpi_value : Z) :
  ((max_export_pixels < requested_pixels doc dpi_value)%Z ->
     effective_dpi doc dpi_value
     = Z.max 72 (Py.int_mul_sqrt dpi_value max_export_pixels
                                 (requested_pixels doc dpi_value))
     /\ (72 <= effective_dpi doc dpi_value)%Z)
  /\ ((requested_pixels doc dpi_value <= max_export_pixels)%Z ->
      effective_dpi doc dpi_value = dpi_value).
Proof.
  destruct (effective_dpi_cases doc dpi_value) as [Hover Hunder].
  split; [|exact Hunder].
  intro H. rewrite (Hover H). split; [reflexivity | lia].
Qed.

Lemma effective_dpi_floor_witness :
  let big := mkDocument 18000 18000 (fun d => (export_px 18000 d, export_px 18000 d)) in
  (max_export_pixels < requested_pixels big 120)%Z
  /\ effective_dpi big 120 = 72%Z
  /\ (72 <= effective_dpi big 120)%Z.
Proof.
  assert (H : (max_export_pixels
               < requested_pixels
                   (mkDocument 18000 18000 (fun d => (export_px 18000 d, export_px 18000 d)))
                   120)%Z) by (vm_compute; reflexivity).
  split; [exact H|].
  destruct (proj1 (effective_dpi_floor _ 120) H) as [E L].
  split; [rewrite E; vm_compute; reflexivity | exact L].
Defined.


(** The pages of an export, one for each range that is not tiny. *)
Lemma export_with_dpi_pages
  (doc : document) (base_dpi : Z) (ranges : list (Q * Q)) (fmt : img_format)
  (dpi_value jpg_q : Z) :
  export_with_dpi doc base_dpi ranges fmt dpi_value jpg_q
  = map (page_of (fst (export_img_size doc base_dpi dpi_value))
                 (snd (export_img_size doc base_dpi dpi_value))
                 (px_to_pt_of doc dpi_value) fmt jpg_q)
        (filter (fun r => negb (tiny_slice (snd (export_img_size doc base_dpi dpi_value)) r))
                ranges).
Proof.
  unfold export_with_dpi. destruct (export_img_size doc base_dpi dpi_value) as [W H].
  simpl fst. simpl snd. unfold build_output_pdf_from_slices.
  rewrite export_slices_flat, flat_map_crops, map_map. reflexivity.
Qed.

Lemma inject_Z_pos (z : Z) : (0 < z)%Z -> (0 < inject_Z z)%Q.
Proof. intro H. change 0%Q with (inject_Z 0). rewrite <- Zlt_Qlt. exact H. Qed.

Lemma inject_Z_nonneg (z : Z) : (0 <= z)%Z -> (0 <= inject_Z z)%Q.
Proof. intro H. change 0%Q with (inject_Z 0). rewrite <- Zle_Qle. exact H. Qed.

(** [export_px]: the pixels of [page_pt] points at [dpi_value], rounded
    down. *)
Lemma export_px_bounds (page_pt : Q) (dpi_value : Z) :
  (0 <= page_pt)%Q -> (0 < dpi_value)%Z ->
  (72 * inject_Z (export_px page_pt dpi_value) <= page_pt * inject_Z dpi_value
   /\ page_pt * inject_Z dpi_value < 72 * inject_Z (export_px page_pt dpi_value) + 72)%Q.
Proof.
  intros Hp Hd. unfold export_px.
  pose proof (inject_Z_pos _ Hd) as Hd'.
  set (d := inject_Z dpi_value) in *.
  set (x := (page_pt * d / 72.0)%Q).
  assert (E : (page_pt * d == 72 * x)%Q) by (unfold x; field).
  assert (Hx : (0 <= x)%Q) by nra.
  pose proof (int_le x Hx). pose proof (int_lt_succ x Hx). split; lra.
Qed.

Lemma export_px_inch (page_pt : Q) (dpi_value : Z) :
  (72 <= page_pt)%Q -> (0 < dpi_value)%Z -> (dpi_value <= export_px page_pt dpi_value)%Z.
Proof.
  intros Hp Hd.
  destruct (export_px_bounds page_pt dpi_value ltac:(lra) Hd) as [_ U].
  pose proof (inject_Z_pos _ Hd) as Hd'.
  assert (H : (inject_Z dpi_value < inject_Z (export_px page_pt dpi_value + 1))%Q).
  { rewrite inject_Z_plus. change (inject_Z 1) with 1%Q. nra. }
  rewrite <- Zlt_Qlt in H. lia.
Qed.

(** The resize of lines 339-341 on integers: [int(width * (d / base))]. *)
Lemma resize_quot (width d base : Z) :
  (0 <= width)%Z -> (0 <= d)%Z -> (0 < base)%Z ->
  Py.int (inject_Z width * (inject_Z d / inject_Z base)) = (width * d / base)%Z.
Proof.
  intros Hw Hd Hb.
  rewrite (int_frac (width * d) base) by (try assumption; rewrite inject_Z_mult; field;
    pose proof (inject_Z_pos _ Hb); lra).
  apply Z.quot_div_nonneg; nia.
Qed.

Section ExportCeiling.

(** An export at the DPI the page was rendered at, of a page at least an
    inch each way, whose raster would exceed the ceiling and whose scaled DPI
    stays above the floor of 72. *)
Variable doc : document.
Variable D : Z.

Let W0 := export_px (page_w_pt doc) D.
Let H0 := export_px (page_h_pt doc) D.
Let T := requested_pixels doc D.
Let k := Py.int_mul_sqrt D max_export_pixels T.

Hypothesis wide : (72 <= page_w_pt doc)%Q.
Hypothesis tall : (72 <= page_h_pt doc)%Q.
Hypothesis D_pos : (0 < D)%Z.
Hypothesis rendered : renders_as_computed doc D.
Hypothesis over_ceiling : (max_export_pixels < T)%Z.
Hypothesis above_floor : (72 <= k)%Z.

Lemma ceiling_T : T = (W0 * H0)%Z.
Proof. reflexivity. Qed.

Lemma ceiling_sizes : (D <= W0 /\ D <= H0)%Z.
Proof. split; apply export_px_inch; assumption. Qed.

Lemma ceiling_k : (k * k * T <= D * D * max_export_pixels /\ k < D)%Z.
Proof.
  assert (HT : (0 < T)%Z) by (unfold max_export_pixels in over_ceiling; lia).
  destruct (int_mul_sqrt_spec D max_export_pixels T ltac:(lia) ltac:(unfold max_export_pixels; lia) HT)
    as (K0 & K1 & _).
  fold k in K0, K1. split; [exact K1|].
  assert (Hlt : (k * k * T < D * D * T)%Z).
  { eapply Z.le_lt_trans; [exact K1|]. apply Z.mul_lt_mono_pos_l; [nia | exact over_ceiling]. }
  assert (Hsq : (k * k < D * D)%Z) by (apply (Z.mul_lt_mono_pos_r T); assumption).
  nia.
Qed.

Lemma ceiling_effective : effective_dpi doc D = k.
Proof.
  rewrite (proj1 (effective_dpi_cases doc D) over_ceiling). fold T. fold k. lia.
Qed.

Lemma ceiling_raster :
  export_img_size doc D D = ((W0 * k / D)%Z, (H0 * k / D)%Z)
  /\ (k <= W0 * k / D)%Z /\ (k <= H0 * k / D)%Z.
Proof.
  destruct ceiling_sizes as [HW HH]. destruct ceiling_k as [_ HkD].
  assert (Hdiv : forall a, (D <= a)%Z -> (k <= a * k / D)%Z).
  { intros a Ha. rewrite <- (Z.div_mul k D) at 1 by lia.
    apply Z.div_le_mono; [lia | nia]. }
  split; [|split; apply Hdiv; assumption].
  unfold export_img_size. rewrite ceiling_effective, rendered. simpl render_page_image_size.
  fold W0. fold H0.
  assert (Hne : (k =? D)%Z = false) by (apply Z.eqb_neq; lia).
  rewrite Hne. simpl negb. cbv iota.
  rewrite !resize_quot by lia.
  pose proof (Hdiv W0 HW). pose proof (Hdiv H0 HH).
  f_equal; lia.
Qed.

(** The raster the export crops fits the ceiling. *)
Lemma ceiling_pixels : (raster_pixels doc D D <= max_export_pixels)%Z.
Proof.
  destruct ceiling_raster as (E & HW & HH). destruct ceiling_k as [K1 HkD].
  destruct ceiling_sizes as [HW0 HH0].
  unfold raster_pixels. rewrite E.
  set (W := (W0 * k / D)%Z) in *. set (H := (H0 * k / D)%Z) in *.
  assert (A : (D * W <= W0 * k)%Z) by (apply Z.mul_div_le; lia).
  assert (B : (D * H <= H0 * k)%Z) by (apply Z.mul_div_le; lia).
  assert (C : ((D * W) * (D * H) <= (W0 * k) * (H0 * k))%Z) by (apply Z.mul_le_mono_nonneg; nia).
  rewrite ceiling_T in K1.
  assert (E2 : ((D * D) * (W * H) <= (D * D) * max_export_pixels)%Z) by nia.
  apply (Z.mul_le_mono_pos_l _ _ (D * D)); [nia | exact E2].
Qed.

Let P := px_to_pt_of doc D.

Lemma ceiling_px_to_pt : (0 < P /\ P * inject_Z k == 72)%Q.
Proof.
  unfold P, px_to_pt_of. rewrite ceiling_effective.
  pose proof (inject_Z_pos k ltac:(lia)) as Hk.
  split; [|field; lra].
  apply Qlt_shift_div_l; [exact Hk | lra].
Qed.

(** [width * k / D] between its neighbours, on the rationals. *)
Lemma ceiling_resize_bounds (a : Z) :
  (0 <= a)%Z ->
  (inject_Z (a * k / D) * inject_Z D <= inject_Z a * inject_Z k
   /\ inject_Z a * inject_Z k < (inject_Z (a * k / D) + 1) * inject_Z D)%Q.
Proof.
  intro Ha.
  pose proof (Z.mul_div_le (a * k) D D_pos) as L.
  pose proof (Z.mul_succ_div_gt (a * k) D D_pos) as U.
  rewrite Zle_Qle in L. rewrite Zlt_Qlt in U.
  unfold Z.succ in U. rewrite !inject_Z_mult in L. rewrite !inject_Z_mult, inject_Z_plus in U.
  change (inject_Z 1) with 1%Q in U.
  split; lra.
Qed.

(** The page width in points is the original one, short by less than two
    pixels. *)
Lemma ceiling_width :
  (page_w_pt doc - 2 * P < inject_Z (W0 * k / D) * P
   /\ inject_Z (W0 * k / D) * P <= page_w_pt doc)%Q.
Proof.
  destruct ceiling_px_to_pt as [HP EP]. destruct ceiling_k as [_ HkD].
  destruct ceiling_sizes as [HW0 _].
  destruct (export_px_bounds (page_w_pt doc) D ltac:(lra) D_pos) as [F1 F1'].
  destruct (ceiling_resize_bounds W0 ltac:(lia)) as [F2 F2'].
  fold W0 in F1, F1'.
  pose proof (inject_Z_pos D D_pos) as Hd. pose proof (inject_Z_pos k ltac:(lia)) as Hkq.
  assert (Hkd : (inject_Z k < inject_Z D)%Q) by (rewrite <- Zlt_Qlt; exact HkD).
  set (w := inject_Z (W0 * k / D)) in *. set (w0 := inject_Z W0) in *.
  set (d := inject_Z D) in *. set (kq := inject_Z k) in *. set (pw := page_w_pt doc) in *.
  assert (Hpos : (0 < kq * d)%Q) by nra.
  assert (E : (w * P * (kq * d) == 72 * (w * d))%Q).
  { transitivity (w * d * (P * kq))%Q; [ring | rewrite EP; ring]. }
  assert (E2 : ((pw - 2 * P) * (kq * d) == pw * kq * d - 144 * d)%Q).
  { transitivity (pw * kq * d - 2 * d * (P * kq))%Q; [ring | rewrite EP; ring]. }
  split.
  - apply (Qmult_lt_r _ _ (kq * d) Hpos). rewrite E, E2.
    assert (S1 : (pw * d * kq < (72 * w0 + 72) * kq)%Q) by (apply Qmult_lt_r; assumption).
    nra.
  - apply (Qmult_le_r _ _ (kq * d) Hpos). rewrite E.
    assert (S1 : (72 * w0 * kq <= pw * d * kq)%Q) by (apply Qmult_le_r; assumption).
    nra.
Qed.

(** The height in points of the page made of the range [y0 .. y1] is that
    share of the original height, within three pixels. *)
Lemma ceiling_height (y0 y1 : Q) :
  (0 <= y0)%Q -> (y0 <= y1)%Q -> (y1 <= 1)%Q ->
  (Qabs (inject_Z (row_px y1 (H0 * k / D) - row_px y0 (H0 * k / D)) * P
         - (y1 - y0) * page_h_pt doc) < 3 * P)%Q.
Proof.
  intros Hy0 Hy01 Hy1.
  destruct ceiling_px_to_pt as [HP EP]. destruct ceiling_k as [_ HkD].
  destruct ceiling_sizes as [_ HH0]. destruct ceiling_raster as (_ & _ & HkH).
  destruct (export_px_bounds (page_h_pt doc) D ltac:(lra) D_pos) as [F1 F1'].
  destruct (ceiling_resize_bounds H0 ltac:(lia)) as [F2 F2'].
  fold H0 in F1, F1'.
  pose proof (inject_Z_pos D D_pos) as Hd. pose proof (inject_Z_pos k ltac:(lia)) as Hkq.
  assert (Hkd : (inject_Z k < inject_Z D)%Q) by (rewrite <- Zlt_Qlt; exact HkD).
  assert (Hh : (0 <= inject_Z (H0 * k / D))%Q) by (apply inject_Z_nonneg; lia).
  unfold row_px, Z.sub. rewrite inject_Z_plus, inject_Z_opp.
  set (h := inject_Z (H0 * k / D)) in *. set (h0 := inject_Z H0) in *.
  set (d := inject_Z D) in *. set (kq := inject_Z k) in *. set (ph := page_h_pt doc) in *.
  assert (Ha0 : (0 <= y0 * h)%Q) by nra.
  assert (Hb0 : (0 <= y1 * h)%Q) by nra.
  pose proof (int_le _ Ha0) as A1. pose proof (int_lt_succ _ Ha0) as A2.
  pose proof (int_le _ Hb0) as B1. pose proof (int_lt_succ _ Hb0) as B2.
  set (a := inject_Z (Py.int (y0 * h))) in *. set (b := inject_Z (Py.int (y1 * h))) in *.
  set (dy := (y1 - y0)%Q).
  assert (Hdy : (0 <= dy /\ dy <= 1)%Q) by (unfold dy; lra).
  assert (Hba : (dy * h - 1 < b - a /\ b - a < dy * h + 1)%Q) by (unfold dy; lra).
  assert (Hpos : (0 < kq * d)%Q) by nra.
  assert (E : (((b + - a) * P - dy * ph) * (kq * d) == 72 * ((b - a) * d) - dy * (ph * d) * kq)%Q).
  { transitivity ((b - a) * d * (P * kq) - dy * (ph * d) * kq)%Q; [ring | rewrite EP; ring]. }
  assert (E3 : ((3 * P) * (kq * d) == 216 * d)%Q).
  { transitivity (3 * d * (P * kq))%Q; [ring | rewrite EP; ring]. }
  assert (E3' : ((- (3 * P)) * (kq * d) == - (216 * d))%Q).
  { transitivity (- (3 * d * (P * kq)))%Q; [ring | rewrite EP; ring]. }
  (* the three roundings, each scaled to the common denominator *)
  assert (R1 : (dy * h * d - d < (b - a) * d /\ (b - a) * d < dy * h * d + d)%Q).
  { destruct Hba as [L U]. split.
    - assert ((dy * h - 1) * d < (b - a) * d)%Q by (apply Qmult_lt_r; assumption). lra.
    - assert ((b - a) * d < (dy * h + 1) * d)%Q by (apply Qmult_lt_r; assumption). lra. }
  assert (R2 : (dy * (h0 * kq) - dy * d <= dy * (h * d) /\ dy * (h * d) <= dy * (h0 * kq))%Q).
  { destruct Hdy as [D0 _]. split.
    - assert ((h0 * kq - d) * dy <= (h * d) * dy)%Q by (apply Qmult_le_compat_r; lra). lra.
    - assert ((h * d) * dy <= (h0 * kq) * dy)%Q by (apply Qmult_le_compat_r; lra). lra. }
  assert (R3 : (dy * (ph * d) * kq - 72 * dy * kq <= 72 * dy * (h0 * kq)
               /\ 72 * dy * (h0 * kq) <= dy * (ph * d) * kq)%Q).
  { destruct Hdy as [D0 _].
    assert (K0 : (0 <= dy * kq)%Q) by nra.
    split.
    - assert ((ph * d - 72) * (dy * kq) <= (72 * h0) * (dy * kq))%Q
        by (apply Qmult_le_compat_r; lra). lra.
    - assert ((72 * h0) * (dy * kq) <= (ph * d) * (dy * kq))%Q
        by (apply Qmult_le_compat_r; lra). lra. }
  assert (R4 : (dy * kq <= d /\ dy * d <= d)%Q) by (destruct Hdy; split; nra).
  apply Qabs_Qlt_condition. split.
  - apply (Qmult_lt_r _ _ (kq * d) Hpos). rewrite E, E3'. lra.
  - apply (Qmult_lt_r _ _ (kq * d) Hpos). rewrite E, E3. lra.
Qed.

End ExportCeiling.



(* ================================================================== *)
(** * The preview raster *)
(* ================================================================== *)

Lemma int_mul_sqrt_shrinks (a n d : Z) :
  (0 < a)%Z -> (0 <= n)%Z -> (n < d)%Z -> (0 <= Py.int_mul_sqrt a n d < a)%Z.
Proof.
  intros Ha Hn Hd.
  destruct (int_mul_sqrt_spec a n d ltac:(lia) Hn ltac:(lia)) as (K0 & K1 & _).
  split; [exact K0|].
  set (k := Py.int_mul_sqrt a n d) in *.
  assert (Hlt : (k * k * d < a * a * d)%Z).
  { eapply Z.le_lt_trans; [exact K1|]. apply Z.mul_lt_mono_pos_l; [nia | exact Hd]. }
  assert (Hsq : (k * k < a * a)%Z) by (apply (Z.mul_lt_mono_pos_r d); [lia | exact Hlt]).
  nia.
Qed.

(** The preview keeps both sides between one pixel and the rendered size,
    and, unless one side is so thin that it is clamped to one pixel, holds at
    most [max_pixels] pixels. *)
Theorem render_preview_fits (width height max_pixels : Z) :
  (0 < width)%Z -> (0 < height)%Z -> (0 <= max_pixels)%Z ->
  let size := render_page_image_size (width, height) (Some max_pixels) in
  (1 <= fst size <= width)%Z
  /\ (1 <= snd size <= height)%Z
  /\ ((height <= width * max_pixels)%Z -> (width <= height * max_pixels)%Z ->
      (fst size * snd size <= max_pixels)%Z).
Proof.
  intros Hw Hh Hm size. subst size. unfold render_page_image_size.
  destruct (width * height >? max_pixels)%Z eqn:E; simpl.
  - apply Z.gtb_lt in E.
    pose proof (int_mul_sqrt_shrinks width max_pixels (width * height) Hw Hm E) as Kw.
    pose proof (int_mul_sqrt_shrinks height max_pixels (width * height) Hh Hm E) as Kh.
    destruct (int_mul_sqrt_spec width max_pixels (width * height)
                ltac:(lia) Hm ltac:(lia)) as (_ & Sw & Sw').
    destruct (int_mul_sqrt_spec height max_pixels (width * height)
                ltac:(lia) Hm ltac:(lia)) as (_ & Sh & Sh').
    set (kw := Py.int_mul_sqrt width max_pixels (width * height)) in *.
    set (kh := Py.int_mul_sqrt height max_pixels (width * height)) in *.
    split; [lia|]. split; [lia|].
    intros Hthin Hflat.
    assert (Hkw : (1 <= kw)%Z).
    { destruct (Z_lt_le_dec kw 1) as [Hlt|]; [exfalso | assumption].
      assert (kw = 0)%Z by lia. subst kw. rewrite H in Sw'. nia. }
    assert (Hkh : (1 <= kh)%Z).
    { destruct (Z_lt_le_dec kh 1) as [Hlt|]; [exfalso | assumption].
      assert (kh = 0)%Z by lia. subst kh. rewrite H in Sh'. nia. }
    rewrite !Z.max_r by lia.
    set (T := (width * height)%Z) in *.
    assert (HT : (0 < T)%Z) by (unfold T; nia).
    assert (P : ((kw * kw * T) * (kh * kh * T)
                 <= (width * width * max_pixels) * (height * height * max_pixels))%Z)
      by (apply Z.mul_le_mono_nonneg; nia).
    assert (Q1 : ((kw * kh * T) * (kw * kh * T) <= (T * max_pixels) * (T * max_pixels))%Z).
    { replace ((kw * kh * T) * (kw * kh * T))%Z with ((kw * kw * T) * (kh * kh * T))%Z by ring.
      replace ((T * max_pixels) * (T * max_pixels))%Z
        with ((width * width * max_pixels) * (height * height * max_pixels))%Z
        by (unfold T; ring).
      exact P. }
    assert (Q2 : (kw * kh * T <= T * max_pixels)%Z)
      by (apply Z.square_le_simpl_nonneg; [nia | exact Q1]).
    apply (Z.mul_le_mono_pos_l _ _ T HT). lia.
  - rewrite Z.gtb_ltb in E. apply Z.ltb_ge in E. repeat split; lia.
Qed.

Lemma render_preview_fits_witness :
  let size := render_page_image_size (2000, 20000)%Z (Some 10000000%Z) in
  (1 <= fst size <= 2000)%Z
  /\ (1 <= snd size <= 20000)%Z
  /\ (fst size * snd size <= 10000000)%Z.
Proof.
  pose proof (render_preview_fits 2000 20000 10000000) as H.
  cbv zeta in H.
  destruct H as [H1 [H2 H3]]; [lia | lia | lia |].
  repeat split; try apply H1; try apply H2; apply H3; lia.
Defined.

(* ================================================================== *)
(** * The cut set across clicks, undo and clear *)
(* ================================================================== *)

Lemma click_eqb_refl (x y : Z) : click_eqb (Some (x, y)) (x, y) = true.
Proof. unfold click_eqb. simpl. rewrite !Z.eqb_refl. reflexivity. Qed.

Lemma on_click_same (W H : Z) (x : option Z) (y : Z) (st : session) :
  click_eqb (last_click st) (match x with Some x0 => x0 | None => (-1)%Z end, y) = true ->
  on_click W H (Some (x, Some y)) st = (st, false).
Proof. intro E. unfold on_click. rewrite E. reflexivity. Qed.

Lemma on_click_last (W H : Z) (x : option Z) (y : Z) (st : session) :
  click_eqb (last_click (fst (on_click W H (Some (x, Some y)) st)))
            (match x with Some x0 => x0 | None => (-1)%Z end, y) = true.
Proof.
  unfold on_click.
  destruct (click_eqb (last_click st) _) eqn:E; simpl negb; cbv iota; [exact E|].
  destruct ((0 <? y_orig_of W y)%Z && (y_orig_of W y <? H)%Z)%bool;
    simpl; rewrite !Z.eqb_refl; reflexivity.
Qed.

(** A click event delivered again is ignored: handling it a second time
    changes nothing and asks for no rerun. *)
Theorem on_click_repeated (W H : Z) (click : option (option Z * option Z)) (st : session) :
  on_click W H click (fst (on_click W H click st)) = (fst (on_click W H click st), false).
Proof.
  destruct click as [[x [y|]]|]; try reflexivity.
  apply on_click_same, on_click_last.
Qed.

Lemma length_insert (x : Q) (l : list Q) : length (Py.insert x l) = S (length l).
Proof.
  induction l as [|y l IH]; simpl; [reflexivity|].
  destruct (Qle_bool x y); simpl; [reflexivity | rewrite IH; reflexivity].
Qed.

Lemma length_sorted (l : list Q) : length (Py.sorted l) = length l.
Proof.
  induction l as [|x l IH]; simpl; [reflexivity|]. rewrite length_insert, IH. reflexivity.
Qed.

Lemma length_debounce (dh gap : Z) (o : option Q) (l : list Q) :
  (length (debounce_from dh gap o l) <= length l)%nat.
Proof.
  revert o. induction l as [|c l IH]; intro o; simpl; [lia|].
  destruct o as [p|]; [destruct (far_apart dh gap p c)|]; simpl;
    try (specialize (IH (Some c)); lia). specialize (IH (Some p)). lia.
Qed.

Lemma far_apart_sym (dh gap : Z) (p c : Q) : far_apart dh gap p c = far_apart dh gap c p.
Proof. unfold far_apart. rewrite Qabs_Qminus. reflexivity. Qed.

Lemma far_apart_neq (dh gap : Z) (p c : Q) :
  (0 <= gap)%Z -> far_apart dh gap p c = true -> ~ (p == c)%Q.
Proof.
  intros Hg Hfar E.
  rewrite <- (far_apart_comp dh gap p p c E), (far_apart_same dh gap Hg) in Hfar.
  discriminate.
Qed.

(** An ordered list whose neighbours are spaced increases strictly. *)
Lemma spaced_strict (dh gap : Z) (o : option Q) (l : list Q) :
  (0 <= gap)%Z -> StronglySorted Qle l -> spaced dh gap o l -> StronglySorted Qlt l.
Proof.
  intros Hg Hs. revert o. induction Hs as [|c l Hl IH Hc]; intros o Hsp; [constructor|].
  simpl in Hsp. destruct Hsp as [_ Hsp]. constructor; [eapply IH, Hsp|].
  destruct l as [|t l']; [constructor|].
  simpl in Hsp. destruct Hsp as [Hfar _].
  inversion Hc as [|? ? Hct Hc']; subst.
  assert (Hlt : (c < t)%Q).
  { apply Qle_lteq in Hct. destruct Hct as [Hlt | Heq]; [exact Hlt|].
    exfalso. exact (far_apart_neq dh gap c t Hg Hfar Heq). }
  constructor; [exact Hlt|].
  inversion Hl as [|? ? _ Ht]; subst.
  eapply Forall_impl; [|exact Ht]. simpl. intros a Ha. eapply Qlt_le_trans; eassumption.
Qed.

Lemma In_removelast {A : Type} (l : list A) (x : A) : In x (removelast l) -> In x l.
Proof.
  induction l as [|a l IH]; simpl; [tauto|].
  destruct l as [|b l']; [simpl; tauto|].
  intros [-> | Hin]; [left; reflexivity | right; apply IH, Hin].
Qed.

Lemma Forall_removelast {A : Type} (P : A -> Prop) (l : list A) :
  Forall P l -> Forall P (removelast l).
Proof.
  intro H. apply Forall_forall. intros x Hx. rewrite Forall_forall in H.
  apply H, In_removelast, Hx.
Qed.

Lemma sorted_removelast {A : Type} (R : A -> A -> Prop) (l : list A) :
  StronglySorted R l -> StronglySorted R (removelast l).
Proof.
  induction 1 as [|a l Hl IH Ha]; simpl; [constructor|].
  destruct l as [|b l']; [constructor|].
  constructor; [exact IH | apply Forall_removelast, Ha].
Qed.

Lemma spaced_removelast (dh gap : Z) (o : option Q) (l : list Q) :
  spaced dh gap o l -> spaced dh gap o (removelast l).
Proof.
  revert o. induction l as [|a l IH]; intros o H; [exact H|].
  destruct H as [Ha Hl]. simpl removelast.
  destruct l as [|b l']; [exact I|]. split; [exact Ha | apply IH, Hl].
Qed.

Lemma y_frac_inside (W H y_disp : Z) :
  (0 < H)%Z -> (0 < y_orig_of W y_disp < H)%Z ->
  (0 < y_frac_of W H y_disp /\ y_frac_of W H y_disp < 1)%Q.
Proof.
  intros HH [H0 H1]. unfold y_frac_of.
  pose proof (inject_Z_pos _ HH) as Hh. pose proof (inject_Z_pos _ H0) as Hy.
  rewrite Zlt_Qlt in H1.
  split; [apply Qlt_shift_div_l | apply Qlt_shift_div_r]; lra.
Qed.

Lemma In_insert_after (c x : Q) (l : list Q) :
  In x (insert_after c l) <-> x = c \/ In x l.
Proof.
  induction l as [|t l IH]; simpl; [intuition congruence|].
  destruct (Py.ltb c t); simpl; [intuition congruence|].
  rewrite IH. intuition congruence.
Qed.

Lemma length_insert_after (c : Q) (l : list Q) :
  length (insert_after c l) = S (length l).
Proof.
  induction l as [|t l IH]; simpl; [reflexivity|].
  destruct (Py.ltb c t); simpl; [reflexivity | rewrite IH; reflexivity].
Qed.

(** Putting a cut that is far from every cut of a spaced list in its place
    leaves a spaced list. *)
Lemma spaced_insert_after (dh gap : Z) (c : Q) (o : option Q) (l : list Q) :
  spaced dh gap o l ->
  match o with Some p => far_apart dh gap p c = true | None => True end ->
  (forall t, In t l -> far_apart dh gap t c = true) ->
  spaced dh gap o (insert_after c l).
Proof.
  revert o. induction l as [|t l IH]; intros o Hsp Ho Hfar; simpl.
  - split; [exact Ho | exact I].
  - destruct Hsp as [Ht Hl].
    assert (Htc : far_apart dh gap t c = true) by (apply Hfar; left; reflexivity).
    destruct (Py.ltb c t); simpl.
    + split; [exact Ho|]. split; [rewrite far_apart_sym; exact Htc | exact Hl].
    + split; [exact Ht|]. apply IH; [exact Hl | exact Htc |].
      intros u Hu. apply Hfar. right. exact Hu.
Qed.



Lemma insert_after_last (c : Q) (l : list Q) :
  Forall (fun t => t <= c)%Q l -> insert_after c l = l ++ [c].
Proof.
  induction 1 as [|t l Ht _ IH]; simpl; [reflexivity|].
  rewrite (proj2 (ltb_ge c t) Ht), IH. reflexivity.
Qed.



(** Undo removes the greatest cut, whichever click added it: the cuts that
    remain are the others, all smaller. *)
Theorem undo_removes_greatest (display_height : Z) (st : session) :
  cut_set_ok display_height (cuts_y st) -> cuts_y st <> [] ->
  cuts_y st = cuts_y (undo_last_cut st) ++ [last (cuts_y st) 0%Q]
  /\ Forall (fun y => y < last (cuts_y st) 0)%Q (cuts_y (undo_last_cut st)).
Proof.
  intros (Hs & _ & _) Hne. unfold undo_last_cut.
  destruct (cuts_y st) as [|a l] eqn:E; [contradiction|]. cbn [cuts_y].
  pose proof (app_removelast_last 0%Q Hne) as Happ.
  split; [exact Happ|].
  rewrite Happ in Hs. clear -Hs.
  induction (removelast (a :: l)) as [|x r IH]; [constructor|].
  simpl in Hs. inversion Hs as [|? ? Hr Hx]; subst.
  constructor; [|apply IH, Hr].
  rewrite Forall_forall in Hx. apply Hx, in_or_app. right. left. reflexivity.
Qed.

Lemma undo_removes_greatest_witness :
  let st := mkSession (merge_cut [0.2; 0.8] 0.5 1000 12) None in
  cuts_y st = cuts_y (undo_last_cut st) ++ [last (cuts_y st) 0%Q]
  /\ Forall (fun y => y < last (cuts_y st) 0)%Q (cuts_y (undo_last_cut st)).
Proof.
  apply (undo_removes_greatest 1000 (mkSession (merge_cut [0.2; 0.8] 0.5 1000 12) None)).
  - split; [|split].
    + vm_compute. repeat constructor.
    + vm_compute. repeat split.
    + vm_compute. repeat constructor.
  - vm_compute. discriminate.
Defined.

(** The line of a cut made by a click is drawn on the row of the click or
    at most two display rows above it, never below. *)
Theorem click_line_row (W H click_y : Z) :
  (0 < W)%Z -> (0 < H)%Z -> (0 < y_orig_of W click_y < H)%Z ->
  (click_y - 2 <= cut_line_row (y_frac_of W H click_y) (display_height W H) <= click_y)%Z.
Proof.
  intros HW HH [Hy0 Hy1].
  destruct (scale_bounds W HW) as [Hs0 Hs1].
  pose proof (inject_Z_pos _ HH) as Hh. pose proof (inject_Z_pos _ Hy0) as Hy.
  assert (Hyh : (inject_Z (y_orig_of W click_y) < inject_Z H)%Q) by (rewrite <- Zlt_Qlt; exact Hy1).
  pose proof (round_near (inject_Z click_y / scale W)) as Hr.
  fold (y_orig_of W click_y) in Hr. apply Qabs_Qle_condition in Hr.
  assert (Ec : (inject_Z click_y == inject_Z click_y / scale W * scale W)%Q) by (field; lra).
  unfold cut_line_row, y_frac_of, display_height.
  set (s := scale W) in *. set (yq := inject_Z (y_orig_of W click_y)) in *.
  set (hq := inject_Z H) in *. set (cq := inject_Z click_y) in *.
  set (q := (cq / s)%Q) in *.
  assert (Hhs : (0 <= hq * s)%Q) by nra.
  pose proof (int_le _ Hhs) as D1. pose proof (int_lt_succ _ Hhs) as D2.
  assert (Hdh : (0 <= Py.int (hq * s))%Z) by (apply int_pos; exact Hhs).
  apply inject_Z_nonneg in Hdh.
  set (dq := inject_Z (Py.int (hq * s))) in *.
  set (v := (yq / hq * dq)%Q).
  assert (Ev : (v * hq == yq * dq)%Q) by (unfold v; field; lra).
  assert (Hv0 : (0 <= v)%Q).
  { unfold v. apply Qmult_le_0_compat; [|exact Hdh]. apply Qle_shift_div_l; lra. }
  (* v <= yq * s <= click_y + 1/2 *)
  assert (Up : (v <= yq * s)%Q).
  { apply (Qmult_le_r _ _ hq Hh). rewrite Ev.
    assert (yq * dq <= yq * (hq * s))%Q by (apply Qmult_le_l; lra). lra. }
  (* v > yq * s - 1 >= click_y - 3/2 *)
  assert (Lo : (yq * s - 1 < v)%Q).
  { apply (Qmult_lt_r _ _ hq Hh). rewrite Ev.
    assert (yq * (hq * s - 1) < yq * dq)%Q by (apply Qmult_lt_l; lra).
    assert (yq * 1 < hq * 1)%Q by lra. lra. }
  assert (Hys : ((q - (1 # 2)) * s <= yq * s /\ yq * s <= (q + (1 # 2)) * s)%Q).
  { split; apply Qmult_le_r; lra. }
  assert (Hs2 : (s * (1 # 2) <= 1 # 2)%Q) by lra.
  pose proof (int_le _ Hv0) as V1. pose proof (int_lt_succ _ Hv0) as V2.
  set (r := Py.int v) in *.
  split.
  - assert (Hlt : (inject_Z (click_y - 3) < inject_Z r)%Q).
    { unfold Z.sub. rewrite inject_Z_plus. change (inject_Z (- (3))) with (-(3))%Q.
      fold cq. lra. }
    rewrite <- Zlt_Qlt in Hlt. lia.
  - assert (Hlt : (inject_Z r < inject_Z (click_y + 1))%Q).
    { rewrite inject_Z_plus. change (inject_Z 1) with 1%Q. fold cq. lra. }
    rewrite <- Zlt_Qlt in Hlt. lia.
Qed.

Lemma click_line_row_witness :
  (101 - 2 <= cut_line_row (y_frac_of 3200 10000 101) (display_height 3200 10000) <= 101)%Z.
Proof.
  apply (click_line_row 3200 10000 101); [lia | lia | vm_compute; split; reflexivity].
Defined.

(* ================================================================== *)
(** * Cuts left in pixel rows *)
(* ================================================================== *)

Lemma max_fold_spec (l : list Q) (m : Q) :
  let r := fold_left (fun m y => if Py.ltb m y then y else m) l m in
  (m <= r)%Q /\ Forall (fun y => y <= r)%Q l /\ (r = m \/ In r l).
Proof.
  revert m. induction l as [|y l IH]; intro m; simpl.
  - repeat split; [apply Qle_refl | constructor | left; reflexivity].
  - destruct (Py.ltb m y) eqn:E.
    + apply ltb_lt in E. destruct (IH y) as (I1 & I2 & I3).
      repeat split.
      * eapply Qle_trans; [apply Qlt_le_weak, E | exact I1].
      * constructor; assumption.
      * right. destruct I3 as [-> | I3]; [left; reflexivity | right; exact I3].
    + apply ltb_ge in E. destruct (IH m) as (I1 & I2 & I3).
      repeat split.
      * exact I1.
      * constructor; [eapply Qle_trans; eassumption | exact I2].
      * destruct I3 as [-> | I3]; [left; reflexivity | right; right; exact I3].
Qed.

Lemma max_list_over (l : list Q) :
  l <> [] -> (Py.gtb (max_list l 0) 1 = true <-> Exists (fun y => 1 < y)%Q l).
Proof.
  destruct l as [|x l]; [contradiction|]. intros _. simpl max_list.
  destruct (max_fold_spec l x) as (I1 & I2 & I3).
  set (r := fold_left _ l x) in *. rewrite gtb_gt. split.
  - intro H. apply Exists_exists. exists r. split; [|exact H].
    destruct I3 as [-> | I3]; [left; reflexivity | right; exact I3].
  - intro H. apply Exists_exists in H. destruct H as (y & Hy & H1).
    destruct Hy as [<- | Hy]; [lra|].
    rewrite Forall_forall in I2. specialize (I2 y Hy). lra.
Qed.

(** A cut list of fractions is left as it is; one holding pixel rows of a
    raster [H] pixels high comes out as fractions, and is then left as it
    is. *)
Theorem normalise_cuts_fractions (H : Z) (cuts : list Q) :
  (0 < H)%Z ->
  (Forall (fun y => y <= 1)%Q cuts -> normalise_cuts H cuts = cuts)
  /\ (Forall (fun y => 0 <= y /\ y <= inject_Z H)%Q cuts ->
      Forall (fun y => 0 <= y /\ y <= 1)%Q (normalise_cuts H cuts)
      /\ normalise_cuts H (normalise_cuts H cuts) = normalise_cuts H cuts).
Proof.
  intro HH. pose proof (inject_Z_pos _ HH) as Hh.
  assert (Hid : forall l, Forall (fun y => y <= 1)%Q l -> normalise_cuts H l = l).
  { intros l Hl. unfold normalise_cuts. destruct l as [|x l']; [reflexivity|].
    destruct (Py.gtb (max_list (x :: l') 0) 1) eqn:E; [|reflexivity].
    apply max_list_over in E; [|discriminate]. apply Exists_exists in E.
    destruct E as (y & Hy & H1). rewrite Forall_forall in Hl. specialize (Hl y Hy). lra. }
  split; [apply Hid|].
  intro Hpx.
  assert (Hfr : Forall (fun y => 0 <= y /\ y <= 1)%Q (normalise_cuts H cuts)).
  { unfold normalise_cuts. destruct cuts as [|x l']; [constructor|].
    destruct (Py.gtb (max_list (x :: l') 0) 1) eqn:E.
    - apply Forall_forall. intros z Hz. apply in_map_iff in Hz.
      destruct Hz as (y & <- & Hy). rewrite Forall_forall in Hpx.
      destruct (Hpx y Hy) as [H0 H1].
      split; [apply Qle_shift_div_l | apply Qle_shift_div_r]; lra.
    - apply gtb_le in E. destruct (max_fold_spec l' x) as (I1 & I2 & _).
      simpl max_list in E.
      apply Forall_forall. intros y Hy. rewrite Forall_forall in Hpx.
      destruct (Hpx y Hy) as [H0 _]. split; [exact H0|].
      destruct Hy as [<- | Hy]; [lra|].
      rewrite Forall_forall in I2. specialize (I2 y Hy). lra. }
  split; [exact Hfr|]. apply Hid.
  eapply Forall_impl; [|exact Hfr]. simpl. intros y [_ Hy]. exact Hy.
Qed.

Lemma normalise_cuts_fractions_witness :
  normalise_cuts 1000 [0.25; 0.5]%Q = [0.25; 0.5]%Q
  /\ Forall (fun y => 0 <= y /\ y <= 1)%Q (normalise_cuts 1000 [250; 500]%Q)
  /\ normalise_cuts 1000 (normalise_cuts 1000 [250; 500]%Q)
     = normalise_cuts 1000 [250; 500]%Q.
Proof.
  split.
  - apply (proj1 (normalise_cuts_fractions 1000 [0.25; 0.5]%Q eq_refl)).
    repeat constructor; vm_compute; intro E; discriminate E.
  - apply (proj2 (normalise_cuts_fractions 1000 [250; 500]%Q eq_refl)).
    repeat constructor; vm_compute; intro E; discriminate E.
Defined.

(* ================================================================== *)
(** * The image format across preset changes *)
(* ================================================================== *)

Lemma gradescope_pass (s : format_session) :
  fst (choose_format Gradescope s) = JPEG
  /\ gs_was_selected (snd (choose_format Gradescope s)) = Some true
  /\ img_format_select (snd (choose_format Gradescope s)) = Some JPEG_smaller_Default
  /\ img_format_prev (snd (choose_format Gradescope s))
     = match gs_was_selected s with
       | Some true => img_format_prev s
       | _ => Some (match img_format_select s with
                    | Some v => v
                    | None => JPEG_smaller_Default
                    end)
       end.
Proof.
  unfold choose_format. simpl.
  destruct (gs_was_selected s) as [[|]|]; simpl; repeat split; reflexivity.
Qed.

Lemma gradescope_passes (c : format_choice) (s : format_session) (n : nat) :
  gs_was_selected s <> Some true -> img_format_select s = Some c ->
  Nat.iter (S n) (fun s => snd (choose_format Gradescope s)) s
  = mkFormat (Some true) (Some c) (Some JPEG_smaller_Default).
Proof.
  intros Hwas Hsel. induction n as [|n IH].
  - simpl Nat.iter. unfold choose_format. simpl. rewrite Hsel.
    destruct (gs_was_selected s) as [[|]|];
      [exfalso; apply Hwas; reflexivity | reflexivity | reflexivity].
  - change (Nat.iter (S (S n)) ?f s) with (f (Nat.iter (S n) f s)). rewrite IH.
    reflexivity.
Qed.

(** While the Gradescope preset is chosen the export format is JPEG, and
    the format the user had chosen before comes back when another preset is
    chosen again, however many runs the Gradescope preset stayed. *)
Theorem format_restored
  (c : format_choice) (s : format_session) (n : nat) (label : quality_label) :
  startswith_Gradescope label = false ->
  gs_was_selected s <> Some true -> img_format_select s = Some c ->
  let during := Nat.iter (S n) (fun s => snd (choose_format Gradescope s)) s in
  fst (choose_format Gradescope s) = JPEG
  /\ fst (choose_format Gradescope during) = JPEG
  /\ choose_format label during = (format_of c, mkFormat (Some false) (Some c) (Some c)).
Proof.
  intros Hlabel Hwas Hsel during. subst during.
  rewrite (gradescope_passes c s n Hwas Hsel).
  split; [apply gradescope_pass|]. split; [apply gradescope_pass|].
  unfold choose_format. rewrite Hlabel. reflexivity.
Qed.

Lemma format_restored_witness :
  let s := user_picks PNG_lossless (mkFormat (Some false) None None) in
  let during := Nat.iter 3 (fun s => snd (choose_format Gradescope s)) s in
  fst (choose_format Gradescope s) = JPEG
  /\ fst (choose_format Gradescope during) = JPEG
  /\ choose_format High during
     = (format_of PNG_lossless, mkFormat (Some false) (Some PNG_lossless) (Some PNG_lossless)).
Proof.
  apply (format_restored PNG_lossless
           (user_picks PNG_lossless (mkFormat (Some false) None None)) 2 High).
  - reflexivity.
  - simpl. discriminate.
  - reflexivity.
Defined.

(* ================================================================== *)
(** * How many pages an export has, and what they cover *)
(* ================================================================== *)

Lemma ranges_from_within (start : Q) (cuts : list Q) (r : Q * Q) :
  StronglySorted Qle (start :: cuts) -> Forall (fun y => y <= 1)%Q (start :: cuts) ->
  In r (ranges_from start cuts) ->
  (start <= fst r /\ fst r <= snd r /\ snd r <= 1)%Q.
Proof.
  revert start. induction cuts as [|y cuts IH]; intros start Hs H1 Hin.
  - destruct Hin as [<- | []]. simpl. inversion H1; subst. repeat split; lra.
  - inversion Hs as [|? ? Hs' Hall]; subst. inversion Hall as [|? ? Hsy _]; subst.
    inversion H1 as [|? ? _ H1']; subst. inversion H1' as [|? ? Hy1 _]; subst.
    destruct Hin as [<- | Hin]; [simpl; repeat split; lra|].
    destruct (IH y Hs' H1' Hin) as (A & B & C). repeat split; lra.
Qed.

Lemma export_ranges_within (cuts_y : list Q) (r : Q * Q) :
  In r (export_ranges cuts_y) -> (0 <= fst r /\ fst r <= snd r /\ snd r <= 1)%Q.
Proof.
  unfold export_ranges. rewrite plan_slices_ranges.
  pose proof (export_cuts_inside cuts_y) as Hin.
  apply ranges_from_within.
  - constructor; [apply export_cuts_ordered|].
    eapply Forall_impl; [|exact Hin]. simpl. intros y [Hy _]. apply Qlt_le_weak, Hy.
  - constructor; [lra|].
    eapply Forall_impl; [|exact Hin]. simpl. intros y [_ Hy]. apply Qlt_le_weak, Hy.
Qed.

(** Tiny slices only: together they are less than two rows each. *)
Lemma tiny_sum (H : Z) (cuts : list Q) (start : Q) :
  (forall r, In r (ranges_from start cuts) -> tiny_slice H r = true) ->
  ((1 - start) * inject_Z H
   < 2 * inject_Z (Z.of_nat (length (ranges_from start cuts))))%Q.
Proof.
  revert start. induction cuts as [|y cuts IH]; intros start Hall.
  - specialize (Hall (start, 1%Q) (or_introl eq_refl)). apply ltb_lt in Hall.
    simpl length. change (inject_Z (Z.of_nat 1)) with 1%Q. lra.
  - pose proof (Hall (start, y) (or_introl eq_refl)) as Hy. apply ltb_lt in Hy.
    assert (Hrest : forall r, In r (ranges_from y cuts) -> tiny_slice H r = true)
      by (intros r Hr; apply Hall; right; exact Hr).
    specialize (IH y Hrest).
    change (length (ranges_from start (y :: cuts))) with (S (length (ranges_from y cuts))).
    rewrite Nat2Z.inj_succ. unfold Z.succ. rewrite inject_Z_plus.
    change (inject_Z 1) with 1%Q. lra.
Qed.

Lemma export_cuts_length (cuts_y : list Q) : (length (export_cuts cuts_y) <= length cuts_y)%nat.
Proof. unfold export_cuts. rewrite length_sorted. apply filter_length_le. Qed.

Lemma filter_none {A : Type} (f : A -> bool) (l : list A) :
  (forall x, In x l -> f x = false) -> filter f l = [].
Proof.
  induction l as [|a l IH]; intro H; simpl; [reflexivity|].
  rewrite (H a (or_introl eq_refl)). apply IH. intros x Hx. apply H. right. exact Hx.
Qed.



Lemma tiled_height (lo hi : Z) (bs : list box) :
  tiled lo hi bs -> total_height bs = (hi - lo)%Z.
Proof.
  revert lo. induction bs as [|b bs IH]; simpl; intros lo H.
  - subst. unfold total_height. simpl. lia.
  - destruct H as [Hu Hl]. specialize (IH _ Hl).
    unfold total_height in *. simpl. rewrite IH. unfold box_height. lia.
Qed.

Lemma ranges_tiled (W H : Z) (cuts : list Q) (start : Q) :
  tiled (row_px start H) (row_px 1 H)
        (map (fun r => mkBox 0 (row_px (fst r) H) W (row_px (snd r) H))
             (ranges_from start cuts)).
Proof.
  revert start. induction cuts as [|y cuts IH]; intro start; simpl.
  - split; reflexivity.
  - split; [reflexivity | apply IH].
Qed.

Lemma pages_height_pt (W H : Z) (P : Q) (fmt : img_format) (jpg_q : Z) (rs : list (Q * Q)) :
  (total_height_pt (map (page_of W H P fmt jpg_q) rs)
   == inject_Z (total_height
                  (map (fun r => mkBox 0 (row_px (fst r) H) W (row_px (snd r) H)) rs)) * P)%Q.
Proof.
  induction rs as [|r rs IH]; unfold total_height_pt, total_height in *; simpl.
  - ring.
  - rewrite IH, inject_Z_plus. ring.
Qed.



(* ================================================================== *)
(** * The range of the effective DPI *)
(* ================================================================== *)

(** From 72 DPI up the export never uses more than the requested DPI nor
    less than 72.  Below 72 DPI a request whose raster still exceeds the
    ceiling is exported at 72 DPI, more than was asked for; so on such a page
    all requests below 72 DPI give the same raster. *)
Theorem effective_dpi_range (doc : document) (base_dpi dpi_value : Z) :
  ((72 <= dpi_value)%Z -> (72 <= effective_dpi doc dpi_value <= dpi_value)%Z)
  /\ ((0 <= dpi_value < 72)%Z ->
      (max_export_pixels < requested_pixels doc dpi_value)%Z ->
      effective_dpi doc dpi_value = 72%Z
      /\ export_img_size doc base_dpi dpi_value = export_img_size doc base_dpi 72).
Proof.
  destruct (effective_dpi_cases doc dpi_value) as [Hover Hunder].
  assert (Hk : (0 <= dpi_value)%Z -> (max_export_pixels < requested_pixels doc dpi_value)%Z ->
               (Py.int_mul_sqrt dpi_value max_export_pixels (requested_pixels doc dpi_value)
                <= dpi_value)%Z).
  { intros Hd Hlt. destruct (Z.eq_dec dpi_value 0) as [-> | Hne].
    - unfold Py.int_mul_sqrt. simpl. lia.
    - pose proof (int_mul_sqrt_shrinks dpi_value max_export_pixels
                    (requested_pixels doc dpi_value)
                    ltac:(lia) ltac:(unfold max_export_pixels; lia) Hlt). lia. }
  split.
  - intro Hd.
    destruct (Z_lt_le_dec max_export_pixels (requested_pixels doc dpi_value)) as [Hlt | Hle].
    + rewrite (Hover Hlt). specialize (Hk ltac:(lia) Hlt). lia.
    + rewrite (Hunder Hle). lia.
  - intros Hd Hlt.
    assert (E : effective_dpi doc dpi_value = 72%Z).
    { rewrite (Hover Hlt). specialize (Hk ltac:(lia) Hlt). lia. }
    assert (E72 : effective_dpi doc 72 = 72%Z).
    { destruct (effective_dpi_cases doc 72) as [Hover72 Hunder72].
      destruct (Z_lt_le_dec max_export_pixels (requested_pixels doc 72)) as [Hlt72 | Hle72].
      - rewrite (Hover72 Hlt72).
        pose proof (int_mul_sqrt_shrinks 72 max_export_pixels (requested_pixels doc 72)
                      ltac:(lia) ltac:(unfold max_export_pixels; lia) Hlt72).
        lia.
      - apply Hunder72, Hle72. }
    split; [exact E|].
    unfold export_img_size. rewrite E, E72. reflexivity.
Qed.

Lemma effective_dpi_range_witness :
  let huge := mkDocument 36000 36000 (fun d => (export_px 36000 d, export_px 36000 d)) in
  (72 <= effective_dpi huge 220 <= 220)%Z
  /\ effective_dpi huge 56 = 72%Z
  /\ export_img_size huge 220 56 = export_img_size huge 220 72.
Proof.
  split.
  - apply (proj1 (effective_dpi_range
             (mkDocument 36000 36000 (fun d => (export_px 36000 d, export_px 36000 d)))
             220 220)).
    lia.
  - apply (proj2 (effective_dpi_range
             (mkDocument 36000 36000 (fun d => (export_px 36000 d, export_px 36000 d)))
             220 56)).
    + lia.
    + vm_compute. reflexivity.
Defined.

(* ================================================================== *)
(** * What the budget search returns *)
(* ================================================================== *)

Lemma degrade_fixed_floor (p : Z * Z) : degrade p = p -> p = (10, 30)%Z.
Proof.
  destruct p as [d q]. unfold degrade. simpl. intro E. injection E as Ed Eq.
  assert (d = 10)%Z.
  { destruct (Z_le_gt_dec d 10) as [Hle | Hgt].
    - rewrite next_dpi_low in Ed by exact Hle. lia.
    - pose proof (next_dpi_less d ltac:(lia)). lia. }
  assert (q = 30)%Z by (unfold next_q in Eq; lia).
  subst. reflexivity.
Qed.

(** Without a stall among the first [n] states, [n] is at most one more than
    the steps of the initial pair to its floors. *)
Lemma run_retries_bound {B : Type} (export : Z -> Z -> B) (dpi jpg_quality : Z) (n : nat) :
  at_floors (dpi, Z.min jpg_quality 85) ->
  (forall i, (i < n)%nat ->
     stalled (Nat.iter i (retry export) (budget_init export dpi jpg_quality)) = false) ->
  (n <= steps_to_floor (dpi, Z.min jpg_quality 85) + 1)%nat.
Proof.
  intros Hfl Hi. destruct n as [|[|n]]; [lia | lia |].
  pose proof (Hi (S n) ltac:(lia)) as Hns.
  assert (Hne : steps_to_floor (Nat.iter n degrade (dpi, Z.min jpg_quality 85)) <> O).
  { intro E. apply degrade_fixed in E; [|apply iter_degrade_floors, Hfl].
    apply (run_stalled export) in E. congruence. }
  rewrite iter_degrade_steps in Hne by exact Hfl. lia.
Qed.

(** The search gives up only at the floors: when what it returns is still
    over target, its last export was made with 10 DPI and quality 30, after at
    least one retry. *)
Theorem budget_gives_up_at_floors {B : Type} (export : Z -> Z -> B) (len : B -> Z)
  (dpi jpg_quality : Z) :
  exists r, budget_search export len dpi jpg_quality = Some r
    /\ (over_target len (out_bytes r) = false
        \/ (last (calls r) (0, 0)%Z = (10, 30)%Z
            /\ out_bytes r = export 10%Z 30%Z
            /\ (2 <= length (calls r))%nat)).
Proof.
  destruct (budget_search_run export len dpi jpg_quality) as (n & Hr & _ & Hend).
  eexists. split; [exact Hr|].
  destruct Hend as [Hunder | Hst]; [left; exact Hunder | right].
  destruct n as [|n]; [simpl in Hst; discriminate|].
  pose proof Hst as Hfix. apply run_stalled in Hfix.
  assert (Ecall : nth_call dpi jpg_quality (S n) = (10, 30)%Z).
  { unfold nth_call. simpl. rewrite Hfix. apply degrade_fixed_floor, Hfix. }
  rewrite run_calls, last_map_seq, run_out, Ecall.
  repeat split. rewrite length_map, length_seq. lia.
Qed.

(** The search returns the first output that fits: every export made before
    the one it returns was over target. *)
Theorem budget_first_fit {B : Type} (export : Z -> Z -> B) (len : B -> Z)
  (dpi jpg_quality : Z) :
  exists r, budget_search export len dpi jpg_quality = Some r
    /\ out_bytes r = export (fst (nth_call dpi jpg_quality (retries r)))
                            (snd (nth_call dpi jpg_quality (retries r)))
    /\ (forall i, (i < retries r)%nat ->
          over_target len (export (fst (nth_call dpi jpg_quality i))
                                  (snd (nth_call dpi jpg_quality i))) = true).
Proof.
  destruct (budget_search_run export len dpi jpg_quality) as (n & Hr & Hi & _).
  eexists. split; [exact Hr|].
  assert (En : retries (Nat.iter n (retry export) (budget_init export dpi jpg_quality)) = n).
  { unfold retries. rewrite run_calls, length_map, length_seq. reflexivity. }
  rewrite En. split; [apply run_out|].
  intros i Hlt. destruct (Hi i Hlt) as [Hover _]. rewrite run_out in Hover. exact Hover.
Qed.

Lemma nth_call_range (dpi jpg_quality : Z) (i : nat) :
  (10 <= fst (nth_call dpi jpg_quality (S i))
   /\ 30 <= snd (nth_call dpi jpg_quality (S i)) <= 75)%Z.
Proof.
  induction i as [|i IH].
  - unfold nth_call. simpl. split; [apply next_dpi_floor | unfold next_q; lia].
  - change (nth_call dpi jpg_quality (S (S i)))
      with (degrade (nth_call dpi jpg_quality (S i))).
    destruct (nth_call dpi jpg_quality (S i)) as [d q]. simpl in *.
    split; [apply next_dpi_floor | unfold next_q; lia].
Qed.

(** Whatever preset values it starts from, every retry of the search asks
    for at least 10 DPI and for a quality between 30 and 75. *)
Theorem budget_retry_range {B : Type} (export : Z -> Z -> B) (len : B -> Z)
  (dpi jpg_quality : Z) :
  exists r, budget_search export len dpi jpg_quality = Some r
    /\ hd (0, 0)%Z (calls r) = (dpi, jpg_quality)
    /\ Forall (fun p => 10 <= fst p /\ 30 <= snd p <= 75)%Z (tl (calls r)).
Proof.
  destruct (budget_search_run export len dpi jpg_quality) as (n & Hr & _ & _).
  eexists. split; [exact Hr|]. rewrite run_calls.
  change (seq 0 (S n)) with (0%nat :: seq 1 n). simpl map. split; [reflexivity|].
  simpl tl. apply Forall_forall. intros p Hp. apply in_map_iff in Hp.
  destruct Hp as (j & <- & Hj). apply in_seq in Hj.
  destruct j as [|j]; [lia|]. apply nth_call_range.
Qed.

(** Pressing export costs one export for the fixed presets and at most
    fifteen for the Gradescope preset, whatever the document; the first one
    uses the preset's own DPI and quality. *)
Theorem export_clicked_calls {B : Type} (export : Z -> Z -> B) (len : B -> Z)
  (label : quality_label) :
  exists r, export_clicked export len label = Some r
    /\ hd (0, 0)%Z (calls r) = (dpi (QUALITY_PRESETS label), jpg_q (QUALITY_PRESETS label))
    /\ (length (calls r) <= 15)%nat
    /\ (startswith_Gradescope label = false -> length (calls r) = 1%nat).
Proof.
  destruct label; try (eexists; split; [reflexivity|]; simpl; repeat split; lia).
  unfold export_clicked. simpl startswith_Gradescope. cbv iota.
  change (dpi (QUALITY_PRESETS Gradescope)) with 220%Z.
  change (jpg_q (QUALITY_PRESETS Gradescope)) with 80%Z.
  destruct (budget_search_run export len 220 80) as (n & Hr & Hi & _).
  eexists. split; [exact Hr|].
  assert (Hn : (n <= steps_to_floor (220, Z.min 80 85)%Z + 1)%nat).
  { apply (run_retries_bound export 220 80 n).
    - split; simpl; lia.
    - intros i Hlt. apply Hi, Hlt. }
  change (steps_to_floor (220, Z.min 80 85)%Z) with 13%nat in Hn.
  rewrite run_calls.
  change (seq 0 (S n)) with (0%nat :: seq 1 n). simpl map.
  split; [reflexivity|]. split; [|discriminate].
  simpl length. rewrite length_map, length_seq. lia.
Qed.

(* ================================================================== *)
(** * The name of the download *)
(* ================================================================== *)

Module FileNameFacts.
Import Ascii String FileName.

Lemma no_dot_none (s : string) : no_dot s = true -> before_last_dot s = None.
Proof.
  induction s as [|c s IH]; simpl; [reflexivity|].
  intro H. apply andb_true_iff in H. destruct H as [Hc Hs].
  rewrite (IH Hs). apply negb_true_iff in Hc. rewrite Hc. reflexivity.
Qed.

Lemma before_last_dot_app (base ext : string) :
  no_dot ext = true ->
  before_last_dot (base ++ String "."%char ext)%string = Some base.
Proof.
  intro H. induction base as [|c base IH]; simpl.
  - rewrite (no_dot_none ext H). reflexivity.
  - rewrite IH. reflexivity.
Qed.

(** The download is named after the upload without its extension: for a
    name [base.ext] whose extension holds no dot it is [base_split.pdf], dots
    inside [base] being kept; a name without any dot is kept whole. *)
Theorem file_name_of_upload (base ext : string) :
  no_dot ext = true ->
  base_name (base ++ String "."%char ext)%string = base
  /\ file_name (base ++ String "."%char ext)%string = (base ++ "_split.pdf")%string
  /\ file_name ext = (ext ++ "_split.pdf")%string.
Proof.
  intro H. unfold file_name, base_name.
  rewrite (before_last_dot_app base ext H), (no_dot_none ext H). repeat split.
Qed.

Lemma file_name_of_upload_witness :
  base_name "notes.v2.pdf"%string = "notes.v2"%string
  /\ file_name "notes.v2.pdf"%string = "notes.v2_split.pdf"%string
  /\ file_name "pdf"%string = "pdf_split.pdf"%string.
Proof.
  apply (file_name_of_upload "notes.v2"%string "pdf"%string). reflexivity.
Defined.

End FileNameFacts.

(* ================================================================== *)
(** * Binary64 rounding *)
(* ================================================================== *)

Section Rounding.
Local Open Scope Q_scope.

Lemma pow2_pos (e : Z) : 0 < 2 ^ e.
Proof. apply Qpower_0_lt. reflexivity. Qed.

Lemma pow2_Z (a : Z) : (0 <= a)%Z -> inject_Z (2 ^ a) == 2 ^ a.
Proof. intro H. rewrite Zpower_Qpower by exact H. reflexivity. Qed.

Lemma pow2_succ (e : Z) : 2 ^ (e + 1) == 2 * 2 ^ e.
Proof. rewrite Qpower_plus by discriminate. rewrite Qpower_1_r. ring. Qed.

Lemma pow2_mono (a b : Z) : (a <= b)%Z -> 2 ^ a <= 2 ^ b.
Proof. intro H. apply Qpower_le_compat_l; [exact H | discriminate]. Qed.

Lemma ex_spec (x : Q) : 0 < x -> 2 ^ Fl.ex x <= x /\ x < 2 ^ (Fl.ex x + 1).
Proof.
  intro Hx. unfold Fl.ex.
  destruct x as [n d]. cbn [Qnum Qden].
  assert (Hn : (0 < n)%Z) by (unfold Qlt in Hx; simpl in Hx; lia).
  pose proof (Z.log2_spec n Hn) as [A1 A2].
  pose proof (Z.log2_spec (Z.pos d) (Pos2Z.is_pos d)) as [B1 B2].
  pose proof (Z.log2_nonneg n) as A0.
  pose proof (Z.log2_nonneg (Z.pos d)) as B0.
  set (a := Z.log2 n) in *. set (b := Z.log2 (Z.pos d)) in *.
  assert (Ex : n # d == inject_Z n / inject_Z (Z.pos d)) by apply Qmake_Qdiv.
  assert (Hd : 0 < inject_Z (Z.pos d)) by reflexivity.
  assert (Pa := pow2_pos a). assert (Pb := pow2_pos b).
  assert (LA : 2 ^ (a - b - 1) < n # d).
  { replace (a - b - 1)%Z with (a - (b + 1))%Z by lia.
    rewrite Qpower_minus by discriminate. rewrite Ex.
    rewrite <- !pow2_Z by lia.
    apply Qlt_shift_div_l; [exact Hd|].
    assert (P1 : 0 < inject_Z (2 ^ (b + 1))) by (rewrite pow2_Z by lia; apply pow2_pos).
    unfold Qdiv. rewrite <- Qmult_assoc, (Qmult_comm (/ _)), Qmult_assoc.
    apply Qlt_shift_div_r; [exact P1|].
    rewrite <- !inject_Z_mult. rewrite <- Zlt_Qlt. 
    unfold Z.succ in *. nia. }
  assert (LB : n # d < 2 ^ (a - b + 1)).
  { replace (a - b + 1)%Z with (a + 1 - b)%Z by lia.
    rewrite Qpower_minus by discriminate. rewrite Ex.
    rewrite <- !pow2_Z by lia.
    apply Qlt_shift_div_r; [exact Hd|].
    assert (P1 : 0 < inject_Z (2 ^ b)) by (rewrite pow2_Z by lia; apply pow2_pos).
    unfold Qdiv. rewrite <- Qmult_assoc, (Qmult_comm (/ _)), Qmult_assoc.
    apply Qlt_shift_div_l; [exact P1|].
    rewrite <- !inject_Z_mult. rewrite <- Zlt_Qlt.
    unfold Z.succ in *. nia. }
  destruct (Qle_bool (2 ^ (a - b)) (n # d)) eqn:E.
  - apply Qle_bool_iff in E. split; assumption.
  - replace (a - b - 1 + 1)%Z with (a - b)%Z by lia. split.
    + apply Qlt_le_weak, LA.
    + apply Qnot_le_lt. intro K. apply Qle_bool_iff in K. congruence.
Qed.

Lemma round_comp (x y : Q) : x == y -> Py.round x = Py.round y.
Proof.
  intro E. unfold Py.round. rewrite (Qfloor_comp _ _ E).
  assert (C : (x - inject_Z (Qfloor y) ?= 1 # 2) = (y - inject_Z (Qfloor y) ?= 1 # 2)).
  { apply Qcompare_comp; [rewrite E|]; reflexivity. }
  rewrite C. reflexivity.
Qed.

Lemma round_inject_Z (x : Q) (n : Z) : x == inject_Z n -> Py.round x = n.
Proof.
  intro E. rewrite (round_comp _ _ E). unfold Py.round. rewrite Qfloor_Z.
  assert (C : (inject_Z n - inject_Z n ?= 1 # 2) = Lt).
  { rewrite <- Qlt_alt. unfold Qlt, Qminus, Qplus, Qopp, inject_Z. simpl. lia. }
  rewrite C. reflexivity.
Qed.

Lemma round_mono (x y : Q) : x <= y -> (Py.round x <= Py.round y)%Z.
Proof.
  intro H.
  pose proof (round_near x) as Hx. pose proof (round_near y) as Hy.
  apply Qabs_Qle_condition in Hx, Hy.
  destruct (Z_le_gt_dec (Py.round x) (Py.round y)) as [L|G]; [exact L|exfalso].
  assert (G' : (Py.round y + 1 <= Py.round x)%Z) by lia.
  rewrite Zle_Qle, inject_Z_plus in G'. change (inject_Z 1) with 1 in G'.
  assert (E : x == y) by lra.
  rewrite (round_comp _ _ E) in G. lia.
Qed.

Lemma rnd_pos_eq (x : Q) :
  Fl.rnd_pos x == inject_Z (Py.round (x / 2 ^ (Fl.ex x - 52))) * 2 ^ (Fl.ex x - 52).
Proof. unfold Fl.rnd_pos. apply Qred_correct. Qed.

Lemma pow2_52 (e : Z) : 2 ^ e == inject_Z 4503599627370496 * 2 ^ (e - 52).
Proof.
  replace e with (52 + (e - 52))%Z at 1 by lia.
  rewrite Qpower_plus by discriminate. reflexivity.
Qed.

Lemma rnd_pos_err (x : Q) : 0 < x -> Qabs (Fl.rnd_pos x - x) <= x * Fl.u.
Proof.
  intro Hx. rewrite rnd_pos_eq.
  destruct (ex_spec x Hx) as [L _]. rewrite pow2_52 in L.
  pose proof (pow2_pos (Fl.ex x - 52)) as Hs.
  set (s := 2 ^ (Fl.ex x - 52)) in *.
  pose proof (round_near (x / s)) as Hr. set (m := inject_Z (Py.round (x / s))) in *.
  assert (Eq : x == (x / s) * s) by (field; lra).
  apply Qabs_Qle_condition in Hr. apply Qabs_Qle_condition.
  set (q := x / s) in *. unfold Fl.u.
  change (inject_Z 4503599627370496) with 4503599627370496 in L.
  assert (K : s * (1 # 2) <= x * (1 # 9007199254740992)) by lra.
  rewrite Eq at 2 4. split; nra.
Qed.

Lemma rnd_pos_bounds (x : Q) :
  0 < x -> 2 ^ Fl.ex x <= Fl.rnd_pos x /\ Fl.rnd_pos x <= 2 ^ (Fl.ex x + 1).
Proof.
  intro Hx. rewrite rnd_pos_eq.
  destruct (ex_spec x Hx) as [L U]. rewrite pow2_succ in *. rewrite pow2_52 in *.
  pose proof (pow2_pos (Fl.ex x - 52)) as Hs.
  set (s := 2 ^ (Fl.ex x - 52)) in *.
  assert (Lq : inject_Z 4503599627370496 <= x / s).
  { apply Qle_shift_div_l; [exact Hs | exact L]. }
  assert (Uq : x / s <= inject_Z 9007199254740992).
  { apply Qle_shift_div_r; [exact Hs|].
    change (inject_Z 9007199254740992) with (2 * inject_Z 4503599627370496). lra. }
  apply round_mono in Lq, Uq.
  rewrite (round_inject_Z (inject_Z _) _ (Qeq_refl _)) in Lq.
  rewrite (round_inject_Z (inject_Z _) _ (Qeq_refl _)) in Uq.
  rewrite Zle_Qle in Lq, Uq.
  set (m := inject_Z (Py.round (x / s))) in *.
  change (inject_Z 9007199254740992) with (2 * inject_Z 4503599627370496) in Uq.
  set (c := inject_Z 4503599627370496) in *.
  split; nra.
Qed.

Lemma ex_mono (x y : Q) : 0 < x -> x <= y -> (Fl.ex x <= Fl.ex y)%Z.
Proof.
  intros Hx Hxy.
  destruct (ex_spec x Hx) as [L _].
  destruct (ex_spec y) as [_ U]; [lra|].
  assert (K : 2 ^ Fl.ex x < 2 ^ (Fl.ex y + 1)) by lra.
  apply Qpower_lt_compat_l_inv in K; [lia | reflexivity].
Qed.

Lemma rnd_pos_mono (x y : Q) : 0 < x -> x <= y -> Fl.rnd_pos x <= Fl.rnd_pos y.
Proof.
  intros Hx Hxy. assert (Hy : 0 < y) by lra.
  pose proof (ex_mono x y Hx Hxy) as He.
  destruct (Z.eq_dec (Fl.ex x) (Fl.ex y)) as [E|N].
  - rewrite !rnd_pos_eq, E.
    pose proof (pow2_pos (Fl.ex y - 52)) as Hs. set (s := 2 ^ (Fl.ex y - 52)) in *.
    assert (Hq : x / s <= y / s).
    { apply Qle_shift_div_l; [exact Hs|].
      assert (Eq : x / s * s == x) by (field; lra). rewrite Eq. exact Hxy. }
    apply round_mono in Hq. rewrite Zle_Qle in Hq.
    apply Qmult_le_compat_r; [exact Hq | lra].
  - destruct (rnd_pos_bounds x Hx) as [_ U]. destruct (rnd_pos_bounds y Hy) as [L _].
    assert (P : 2 ^ (Fl.ex x + 1) <= 2 ^ Fl.ex y) by (apply pow2_mono; lia).
    lra.
Qed.

Lemma rnd_pos_gt (x : Q) : 0 < x -> 0 < Fl.rnd_pos x.
Proof.
  intro Hx. destruct (rnd_pos_bounds x Hx) as [L _].
  pose proof (pow2_pos (Fl.ex x)). lra.
Qed.

Lemma rnd_cases (x : Q) :
  (x == 0 /\ Fl.rnd x = 0)
  \/ (0 < x /\ Fl.rnd x = Fl.rnd_pos x)
  \/ (x < 0 /\ Fl.rnd x = - Fl.rnd_pos (- x)).
Proof.
  unfold Fl.rnd. destruct (Qcompare x 0) eqn:C.
  - left. split; [apply Qeq_alt, C | reflexivity].
  - right. right. split; [apply Qlt_alt, C | reflexivity].
  - right. left. split; [apply Qgt_alt, C | reflexivity].
Qed.

(** The standard model of rounding: the relative error is at most [u]. *)
Lemma rnd_err (x : Q) : Qabs (Fl.rnd x - x) <= Qabs x * Fl.u.
Proof.
  destruct (rnd_cases x) as [[H ->] | [[H ->] | [H ->]]].
  - rewrite H. discriminate.
  - rewrite (Qabs_pos x) by lra. apply rnd_pos_err, H.
  - rewrite (Qabs_neg x) by lra.
    assert (Hn : 0 < - x) by lra.
    pose proof (rnd_pos_err (- x) Hn) as K.
    apply Qabs_Qle_condition in K. apply Qabs_Qle_condition. 
    set (r := Fl.rnd_pos (- x)) in *. 
    assert (E : - x * Fl.u == - (x * Fl.u)) by ring. rewrite E in *. lra.
Qed.

Lemma rnd_mono (x y : Q) : x <= y -> Fl.rnd x <= Fl.rnd y.
Proof.
  intro H.
  destruct (rnd_cases x) as [[Hx ->] | [[Hx ->] | [Hx ->]]];
  destruct (rnd_cases y) as [[Hy ->] | [[Hy ->] | [Hy ->]]]; try lra.
  - apply Qlt_le_weak, rnd_pos_gt, Hy.
  - apply rnd_pos_mono; assumption.
  - assert (K : 0 < - x) by lra. apply rnd_pos_gt in K. lra.
  - assert (K : 0 < - x) by lra. apply rnd_pos_gt in K.
    pose proof (rnd_pos_gt y Hy). lra.
  - assert (K : Fl.rnd_pos (- y) <= Fl.rnd_pos (- x)) by (apply rnd_pos_mono; lra).
    lra.
Qed.

Lemma rnd_comp (x y : Q) : x == y -> Fl.rnd x == Fl.rnd y.
Proof.
  intro E. apply Qle_antisym; apply rnd_mono; rewrite E; apply Qle_refl.
Qed.

Lemma rnd_pos_int (x : Q) (n : Z) :
  x == inject_Z n -> (0 < n <= 9007199254740992)%Z -> Fl.rnd_pos x == inject_Z n.
Proof.
  intros E [Hn0 Hn1].
  assert (Hx : 0 < x) by (rewrite E; change 0 with (inject_Z 0); rewrite <- Zlt_Qlt; exact Hn0).
  rewrite rnd_pos_eq.
  destruct (ex_spec x Hx) as [L _].
  remember (Fl.ex x) as e eqn:Ee. clear Ee.
  pose proof (pow2_pos (e - 52)) as Hs.
  assert (He : (e <= 53)%Z).
  { assert (K : 2 ^ e < 2 ^ 54).
    { apply Qle_lt_trans with x; [exact L|]. rewrite E.
      apply Qle_lt_trans with (inject_Z 9007199254740992); [rewrite <- Zle_Qle; exact Hn1 | reflexivity]. }
    apply Qpower_lt_compat_l_inv in K; [lia | reflexivity]. }
  assert (Hk : exists k : Z, x / 2 ^ (e - 52) == inject_Z k).
  { destruct (Z_le_gt_dec e 52) as [Le | Gt].
    - exists (n * 2 ^ (52 - e))%Z.
      rewrite inject_Z_mult, pow2_Z by lia. rewrite E.
      replace (52 - e)%Z with (- (e - 52))%Z by lia.
      rewrite Qpower_opp. reflexivity.
    - assert (E53 : e = 53%Z) by lia. rewrite E53 in *.
      assert (En : n = 9007199254740992%Z).
      { rewrite E in L. change (2 ^ 53) with (inject_Z 9007199254740992) in L.
        rewrite <- Zle_Qle in L. lia. }
      exists 4503599627370496%Z. rewrite E, En. reflexivity. }
  destruct Hk as [k Hk]. rewrite (round_inject_Z _ k Hk), <- Hk.
  rewrite E. field. lra.
Qed.

(** Integers up to [2^53] are floats. *)
Lemma rnd_int (x : Q) (n : Z) :
  x == inject_Z n -> (- 9007199254740992 <= n <= 9007199254740992)%Z ->
  Fl.rnd x == inject_Z n.
Proof.
  intros E Hn.
  destruct (rnd_cases x) as [[Hx ->] | [[Hx ->] | [Hx ->]]].
  - rewrite <- E, Hx. reflexivity.
  - apply rnd_pos_int; [exact E|]. rewrite E in Hx.
    change 0 with (inject_Z 0) in Hx. rewrite <- Zlt_Qlt in Hx. lia.
  - rewrite E in Hx. change 0 with (inject_Z 0) in Hx. rewrite <- Zlt_Qlt in Hx.
    rewrite (rnd_pos_int (- x) (- n)).
    + rewrite inject_Z_opp. ring.
    + rewrite E, inject_Z_opp. reflexivity.
    + lia.
Qed.

End Rounding.

(* ================================================================== *)
(** * Pixel rows of the export, on floats *)
(* ================================================================== *)

Section RoundingUse.
Local Open Scope Q_scope.

Lemma u_small : 0 < Fl.u /\ Fl.u <= 1 # 1000000.
Proof. split; [reflexivity | discriminate]. Qed.

Lemma rnd_bounds (x : Q) :
  0 <= x -> x * (1 - Fl.u) <= Fl.rnd x /\ Fl.rnd x <= x * (1 + Fl.u).
Proof.
  intro Hx. pose proof (rnd_err x) as E. rewrite (Qabs_pos x Hx) in E.
  apply Qabs_Qle_condition in E. split; lra.
Qed.

Lemma rnd_nonneg (x : Q) : 0 <= x -> 0 <= Fl.rnd x.
Proof.
  intro Hx. destruct (rnd_bounds x Hx) as [L _]. destruct u_small as [U0 U1].
  assert (0 <= x * (1 - Fl.u)) by nra. lra.
Qed.

Lemma rnd_gt0 (x : Q) : 0 < x -> 0 < Fl.rnd x.
Proof.
  intro Hx. destruct (rnd_bounds x) as [L _]; [lra|]. destruct u_small as [U0 U1].
  assert (0 < x * (1 - Fl.u)) by nra. lra.
Qed.

Lemma rnd_zero (x : Q) : x == 0 -> Fl.rnd x == 0.
Proof. intro E. apply (rnd_int x 0); [exact E | lia]. Qed.

(** Below [2^51] a float is within a quarter of the number it rounds. *)
Lemma rnd_near (x : Q) :
  0 <= x -> x <= 2251799813685248 -> x - (1 # 4) <= Fl.rnd x /\ Fl.rnd x <= x + (1 # 4).
Proof.
  intros H0 H1. pose proof (rnd_err x) as E. rewrite (Qabs_pos x H0) in E.
  apply Qabs_Qle_condition in E. unfold Fl.u in E. split; lra.
Qed.


Lemma inject_Z_bounds (h lo hi : Z) :
  (lo <= h <= hi)%Z -> inject_Z lo <= inject_Z h /\ inject_Z h <= inject_Z hi.
Proof. intros [A B]. split; rewrite <- Zle_Qle; assumption. Qed.

(** The row of a fraction is the integer part of the float product, which
    is the exact product within one rounding. *)
Lemma fl_row_px_bounds (y : Q) (H : Z) :
  0 <= y -> (0 <= H)%Z ->
  inject_Z (Fl.row_px y H) <= Fl.mul y (inject_Z H)
  /\ Fl.mul y (inject_Z H) < inject_Z (Fl.row_px y H) + 1
  /\ inject_Z (Fl.row_px y H) <= y * inject_Z H * (1 + Fl.u)
  /\ y * inject_Z H * (1 - Fl.u) < inject_Z (Fl.row_px y H) + 1.
Proof.
  intros Hy HH. unfold Fl.row_px, Fl.mul.
  destruct (inject_Z_bounds H 0 H (conj HH (Z.le_refl H))) as [Hh _].
  change (inject_Z 0) with 0 in Hh.
  assert (Hp : 0 <= y * inject_Z H) by nra.
  destruct (rnd_bounds _ Hp) as [L U].
  pose proof (rnd_nonneg _ Hp) as Hr.
  pose proof (int_le _ Hr) as A. pose proof (int_lt_succ _ Hr) as B.
  repeat split; lra.
Qed.

Lemma fl_fold_crops (W H : Z) (ranges : list (Q * Q)) (slices : list box) :
  fold_left (Fl.crop_step W H) ranges slices
  = slices ++ map (fun r => mkBox 0 (Fl.row_px (fst r) H) W (Fl.row_px (snd r) H))
                  (filter (fun r => negb (Fl.tiny_slice H r)) ranges).
Proof.
  revert slices. induction ranges as [|r ranges IH]; intro slices; simpl.
  - rewrite app_nil_r. reflexivity.
  - rewrite IH. unfold Fl.crop_step. destruct (Fl.tiny_slice H r); simpl.
    + reflexivity.
    + rewrite <- app_assoc. reflexivity.
Qed.

Lemma fl_export_slices_filter (ranges : list (Q * Q)) (W H : Z) :
  Fl.export_slices ranges W H
  = map (fun r => mkBox 0 (Fl.row_px (fst r) H) W (Fl.row_px (snd r) H))
        (filter (fun r => negb (Fl.tiny_slice H r)) ranges).
Proof. unfold Fl.export_slices. apply (fl_fold_crops W H ranges []). Qed.

(** The 2-pixel test in exact terms: it can differ from the exact
    comparison only within two roundings of 2. *)
Lemma fl_tiny_slice_exact (y0 y1 : Q) (H : Z) :
  y0 <= y1 -> (0 <= H)%Z ->
  ((y1 - y0) * inject_Z H * (1 + Fl.u) * (1 + Fl.u) < 2 -> Fl.tiny_slice H (y0, y1) = true)
  /\ (2 <= (y1 - y0) * inject_Z H * (1 - Fl.u) * (1 - Fl.u) -> Fl.tiny_slice H (y0, y1) = false).
Proof.
  intros Hy HH. unfold Fl.tiny_slice, Fl.mul, Fl.sub.
  destruct (inject_Z_bounds H 0 H (conj HH (Z.le_refl H))) as [Hh _].
  change (inject_Z 0) with 0 in Hh.
  assert (Hd : 0 <= y1 - y0) by lra.
  destruct (rnd_bounds _ Hd) as [L1 U1]. pose proof (rnd_nonneg _ Hd) as N1.
  set (d := y1 - y0) in *. set (D := Fl.rnd d) in *. set (h := inject_Z H) in *.
  assert (Hp : 0 <= D * h) by nra.
  destruct (rnd_bounds _ Hp) as [L2 U2].
  destruct u_small as [V0 V1]. set (u := Fl.u) in *.
  split; intro K.
  - apply ltb_lt. 
    assert (D * h <= d * h * (1 + u)) by nra.
    assert (D * h * (1 + u) <= d * h * (1 + u) * (1 + u)) by nra.
    lra.
  - apply ltb_ge.
    assert (d * h * (1 - u) <= D * h) by nra.
    assert (d * h * (1 - u) * (1 - u) <= D * h * (1 - u)) by nra.
    lra.
Qed.

(** A slice that passes the 2-pixel test is cropped at least one row high. *)
Lemma fl_kept_height (y0 y1 : Q) (H : Z) :
  0 <= y0 -> y0 <= y1 -> y1 <= 1 -> (0 <= H <= 2 ^ 50)%Z ->
  Fl.tiny_slice H (y0, y1) = false ->
  (1 <= Fl.row_px y1 H - Fl.row_px y0 H)%Z.
Proof.
  intros H0 H01 H1 HH Hk.
  destruct (inject_Z_bounds H 0 (2 ^ 50) HH) as [Hh0 Hh1].
  change (inject_Z 0) with 0 in Hh0.
  change (inject_Z (2 ^ 50)) with 1125899906842624 in Hh1.
  destruct (fl_row_px_bounds y0 H H0 (proj1 HH)) as (A0 & _ & _ & _).
  destruct (fl_row_px_bounds y1 H) as (_ & B1 & _ & _); [lra | lia |].
  unfold Fl.tiny_slice in Hk. apply ltb_ge in Hk. unfold Fl.mul, Fl.sub in *.
  set (h := inject_Z H) in *.
  assert (Hd : 0 <= y1 - y0) by lra.
  destruct (rnd_bounds _ Hd) as [_ Ud]. pose proof (rnd_nonneg _ Hd) as Nd.
  destruct u_small as [V0 V1].
  assert (Ud' : Fl.rnd (y1 - y0) <= y1 - y0 + Fl.u) by nra.
  set (D := Fl.rnd (y1 - y0)) in *.
  assert (Hu : h * Fl.u <= 1 # 8) by (unfold Fl.u; lra).
  assert (P0 : 0 <= D * h) by nra.
  assert (P1 : D * h <= (y1 - y0) * h + (1 # 8)) by nra.
  destruct (rnd_near (D * h) P0) as [_ NP]; [nra|].
  assert (Q0 : 0 <= y0 * h) by nra.
  assert (Q1 : 0 <= y1 * h) by nra.
  destruct (rnd_near (y0 * h) Q0) as [_ N0]; [nra|].
  destruct (rnd_near (y1 * h) Q1) as [N1 _]; [nra|].
  set (r0 := Fl.row_px y0 H) in *. set (r1 := Fl.row_px y1 H) in *.
  destruct (Z_lt_le_dec (r1 - r0) 1) as [Hlt | Hge]; [exfalso | exact Hge].
  assert (Hle : (r1 + 1 <= r0 + 1)%Z) by lia.
  rewrite Zle_Qle, !inject_Z_plus in Hle. change (inject_Z 1) with 1 in Hle.
  lra.
Qed.

End RoundingUse.




(* ================================================================== *)
(** * The click handler, on floats *)
(* ================================================================== *)

Section FlClick.
Local Open Scope Q_scope.

Lemma rnd_nonpos (x : Q) : x <= 0 -> Fl.rnd x <= 0.
Proof.
  intro H. apply rnd_mono in H. rewrite (rnd_zero 0 (Qeq_refl 0)) in H. exact H.
Qed.

(** A float below [B] is within [B * u] of the number it rounds. *)
Lemma rnd_within (x B : Q) :
  0 <= x -> x <= B -> Qabs (Fl.rnd x - x) <= B * Fl.u.
Proof.
  intros H0 H1. pose proof (rnd_err x) as E. rewrite (Qabs_pos x H0) in E.
  destruct u_small as [U0 _]. apply Qle_trans with (x * Fl.u); [exact E|]. nra.
Qed.

Lemma fl_scale_pos (W : Z) : (0 < W)%Z -> 0 < Fl.scale W.
Proof.
  intro HW. unfold Fl.scale, Fl.div. apply rnd_gt0.
  destruct (scale_bounds W HW) as [S0 _]. exact S0.
Qed.

(** The loop of lines 301-304 on floats. *)
Lemma fl_fold_debounce (dh gap : Z) (l filtered : list Q) :
  fold_left (Fl.debounce_step dh gap) l filtered
  = filtered ++ Fl.debounce_from dh gap (last_kept filtered) l.
Proof.
  revert filtered. induction l as [|c l IH]; intro filtered; simpl.
  - rewrite app_nil_r. reflexivity.
  - rewrite IH. unfold Fl.debounce_step. destruct filtered as [|a f'].
    + simpl. reflexivity.
    + cbn [last_kept]. destruct (Fl.far_apart dh gap (last (a :: f') 0%Q) c).
      * rewrite last_kept_snoc, <- app_assoc. reflexivity.
      * reflexivity.
Qed.

Lemma fl_merge_cut_debounce (dh gap : Z) (before : list Q) (y_frac : Q) :
  Fl.merge_cut before y_frac dh gap
  = Fl.debounce_from dh gap None (Py.sorted (before ++ [y_frac])).
Proof. unfold Fl.merge_cut. rewrite fl_fold_debounce. reflexivity. Qed.

Lemma fl_In_debounce (dh gap : Z) (o : option Q) (l : list Q) (x : Q) :
  In x (Fl.debounce_from dh gap o l) -> In x l.
Proof.
  revert o. induction l as [|c l IH]; intros o H; simpl in *; [exact H|].
  destruct o as [p|].
  - destruct (Fl.far_apart dh gap p c).
    + destruct H as [-> | H]; [left; reflexivity | right; eapply IH, H].
    + right. eapply IH, H.
  - destruct H as [-> | H]; [left; reflexivity | right; eapply IH, H].
Qed.

(** Every cut given to the filter is kept, or a cut that is kept (or the
    one kept before) is measured within the gap of it. *)
Lemma fl_debounce_keeps_or_near (dh gap : Z) (o : option Q) (l : list Q) (y : Q) :
  In y l ->
  In y (Fl.debounce_from dh gap o l)
  \/ exists k, (o = Some k \/ In k (Fl.debounce_from dh gap o l))
               /\ Fl.far_apart dh gap k y = false.
Proof.
  revert o. induction l as [|c l IH]; intros o Hin; [contradiction|].
  destruct Hin as [-> | Hin]; simpl.
  - destruct o as [p|].
    + destruct (Fl.far_apart dh gap p y) eqn:E.
      * left. left. reflexivity.
      * right. exists p. split; [left; reflexivity | exact E].
    + left. left. reflexivity.
  - destruct o as [p|].
    + destruct (Fl.far_apart dh gap p c) eqn:E.
      * destruct (IH (Some c) Hin) as [K | (k & [K | K] & F)].
        -- left. right. exact K.
        -- injection K as <-. right. exists c. split; [right; left; reflexivity | exact F].
        -- right. exists k. split; [right; right; exact K | exact F].
      * destruct (IH (Some p) Hin) as [K | (k & [K | K] & F)].
        -- left. exact K.
        -- right. exists k. split; [left; exact K | exact F].
        -- right. exists k. split; [right; exact K | exact F].
    + destruct (IH (Some c) Hin) as [K | (k & [K | K] & F)].
      * left. right. exact K.
      * injection K as <-. right. exists c. split; [right; left; reflexivity | exact F].
      * right. exists k. split; [right; right; exact K | exact F].
Qed.

(** The clicked fraction is stored, or a cut that was there before stays
    and is measured within the gap of it. *)
Lemma fl_merge_cut_stores (before : list Q) (c : Q) (dh gap : Z) :
  let cuts := Fl.merge_cut before c dh gap in
  In c cuts
  \/ exists k, In k cuts /\ In k before /\ Fl.far_apart dh gap k c = false.
Proof.
  intro cuts. subst cuts. rewrite fl_merge_cut_debounce.
  assert (Hin : In c (Py.sorted (before ++ [c]))).
  { apply In_sorted, in_or_app. right. left. reflexivity. }
  destruct (fl_debounce_keeps_or_near dh gap None _ c Hin) as [K | (k & [K | K] & F)].
  - left. exact K.
  - discriminate K.
  - pose proof (fl_In_debounce _ _ _ _ _ K) as Hk.
    apply In_sorted, in_app_or in Hk. destruct Hk as [Hk | [<- | []]].
    + right. exists k. auto.
    + left. exact K.
Qed.

Lemma fl_click_numbers (W H click_y : Z) :
  (0 < W)%Z -> (0 < H <= 2 ^ 40)%Z ->
  let s := Fl.scale W in
  let y_true := Py.round (Fl.div (inject_Z click_y) s) in
  let fraction := Fl.div (inject_Z y_true) (inject_Z H) in
  (0 < y_true < H)%Z ->
  (0 < fraction /\ fraction < 1)
  /\ Qabs (fraction * inject_Z H - inject_Z y_true) <= 1 # 1000
  /\ Qabs (Fl.mul fraction (inject_Z H) - inject_Z click_y / s) <= (1 # 2) + (1 # 1000).
Proof.
  intros HW HH s y_true fraction [Y0 Y1].
  pose proof (fl_scale_pos W HW) as Hs. fold s in Hs.
  destruct (inject_Z_bounds H 1 (2 ^ 40)) as [Hh0 Hh1]; [lia|].
  change (inject_Z 1) with 1 in Hh0. change (inject_Z (2 ^ 40)) with 1099511627776 in Hh1.
  destruct (inject_Z_bounds y_true 1 (H - 1)) as [Ht0 Ht1]; [lia|].
  change (inject_Z 1) with 1 in Ht0.
  unfold Z.sub in Ht1. rewrite inject_Z_plus, inject_Z_opp in Ht1.
  change (inject_Z 1) with 1 in Ht1.
  destruct u_small as [U0 U1].
  (* the quotient click_y / s and its float *)
  pose proof (round_near (Fl.div (inject_Z click_y) s)) as Hr. fold y_true in Hr.
  apply Qabs_Qle_condition in Hr. unfold Fl.div in Hr.
  set (x := inject_Z click_y / s) in *.
  assert (Hx : 0 < x).
  { apply Qnot_le_lt. intro K. apply rnd_nonpos in K. lra. }
  destruct (rnd_bounds x) as [Lx _]; [lra|].
  assert (Hx1 : x <= 2199023255552) by nra.
  pose proof (rnd_within x 2199023255552) as Ex.
  apply Qabs_Qle_condition in Ex; [|lra|exact Hx1]. unfold Fl.u in Ex.
  (* the fraction *)
  set (h := inject_Z H) in *. set (t := inject_Z y_true) in *.
  assert (Hz : 0 < t / h /\ t / h <= 1).
  { split; [apply Qlt_shift_div_l; lra | apply Qle_shift_div_r; lra]. }
  destruct (rnd_bounds (t / h)) as [Lz Uz]; [lra|].
  assert (Ez : t / h * h == t) by (field; lra).
  unfold fraction, Fl.div. fold t h. set (f := Fl.rnd (t / h)) in *.
  assert (Hf0 : 0 < f) by (apply rnd_gt0; lra).
  assert (Hf1 : f < 1).
  { apply Qle_lt_trans with (t / h * (1 + Fl.u)); [exact Uz|].
    assert (K : t / h * (1 + Fl.u) * h < 1 * h); [|nra].
    assert (E : t / h * (1 + Fl.u) * h == t * (1 + Fl.u)) by (field; lra).
    rewrite E. unfold Fl.u. lra. }
  assert (Hu : h * Fl.u <= 1 # 8192) by (unfold Fl.u; lra).
  assert (Ef : - (1 # 8192) <= f * h - t /\ f * h - t <= 1 # 8192).
  { rewrite <- Ez. split; nra. }
  (* the float product *)
  unfold Fl.mul.
  pose proof (rnd_within (f * h) 2199023255552) as Ep.
  apply Qabs_Qle_condition in Ep; [|nra|nra]. unfold Fl.u in Ep.
  repeat split.
  - exact Hf0.
  - exact Hf1.
  - apply Qabs_Qle_condition. lra.
  - apply Qabs_Qle_condition. lra.
Qed.

End FlClick.

(** C4.  A click at display row [click_y] is mapped to
    [y_true = round(click_y / scale)] and [fraction = y_true / H], both
    divisions being float divisions.  When [0 < y_true < H] a new click merges
    this fraction into the cut set: it is stored, or a cut already there is
    measured within the 12 pixels of it and stays.  The fraction lies strictly
    between 0 and 1, [fraction * H] is [y_true] within a thousandth of a pixel,
    and the float product [fraction * H] recovers the click position
    [click_y / scale] within half a pixel and a thousandth.  When [y_true] is
    not strictly between 0 and [H] the cut set is left as it was and no rerun
    is requested. *)
Theorem click_mapping (W H : Z) (click_x : option Z) (click_y : Z) (st : session) :
  (0 < W)%Z -> (0 < H <= 2 ^ 40)%Z ->
  let s := Fl.scale W in
  let y_true := Py.round (Fl.div (inject_Z click_y) s) in
  let fraction := Fl.div (inject_Z y_true) (inject_Z H) in
  let st' := Fl.on_click W H (Some (click_x, Some click_y)) st in
  ((0 < y_true < H)%Z ->
     ((0 < fraction /\ fraction < 1)
      /\ Qabs (fraction * inject_Z H - inject_Z y_true) <= 1 # 1000
      /\ Qabs (Fl.mul fraction (inject_Z H) - inject_Z click_y / s) <= (1 # 2) + (1 # 1000))%Q
     /\ (click_eqb (last_click st)
                   (match click_x with Some x => x | None => (-1)%Z end, click_y) = false ->
         cuts_y (fst st') = Fl.merge_cut (cuts_y st) fraction (Fl.display_height W H) 12
         /\ (In fraction (cuts_y (fst st'))
             \/ exists k, In k (cuts_y (fst st')) /\ In k (cuts_y st)
                          /\ Fl.far_apart (Fl.display_height W H) 12 k fraction = false)))
  /\ (~ (0 < y_true < H)%Z -> cuts_y (fst st') = cuts_y st /\ snd st' = false).
Proof.
  intros HW HH s y_true fraction st'. split.
  - intros Hy. split; [apply (fl_click_numbers W H click_y HW HH Hy)|].
    intro Hnew.
    assert (E : cuts_y (fst st')
                = Fl.merge_cut (cuts_y st) fraction (Fl.display_height W H) 12).
    { subst st'. unfold Fl.on_click. rewrite Hnew. simpl negb. cbv iota.
      change (Fl.y_orig_of W click_y) with y_true.
      assert (Hin : ((0 <? y_true) && (y_true <? H))%Z = true).
      { apply andb_true_iff. split; apply Z.ltb_lt; lia. }
      rewrite Hin. reflexivity. }
    split; [exact E|]. rewrite E. apply fl_merge_cut_stores.
  - intro Hout. subst st'. unfold Fl.on_click.
    destruct (click_eqb (last_click st) _); simpl negb; cbv iota; [split; reflexivity|].
    change (Fl.y_orig_of W click_y) with y_true.
    assert (Hin : ((0 <? y_true) && (y_true <? H))%Z = false).
    { apply not_true_is_false. intro E. apply andb_true_iff in E. destruct E as [E0 E1].
      apply Z.ltb_lt in E0, E1. apply Hout. split; assumption. }
    rewrite Hin. split; reflexivity.
Qed.

Lemma click_mapping_witness :
  let st := mkSession [Fl.div 200 1000] None in
  let st' := Fl.on_click 1705 1000 (Some (Some 5%Z, Some 480%Z)) st in
  Py.round (Fl.div 480 (Fl.scale 1705)) = 511%Z
  /\ cuts_y (fst st') = [Fl.div 200 1000; Fl.div 511 1000]
  /\ (Qabs (Fl.mul (Fl.div 511 1000) 1000 - 480 / Fl.scale 1705) <= (1 # 2) + (1 # 1000))%Q.
Proof.
  pose proof (click_mapping 1705 1000 (Some 5%Z) 480 (mkSession [Fl.div 200 1000] None)) as K.
  cbv zeta in K.
  destruct K as [K _]; [lia | vm_compute; split; [reflexivity | discriminate] |].
  destruct K as [(_ & _ & B) K]; [vm_compute; split; reflexivity |].
  destruct K as [E _]; [reflexivity |].
  split; [vm_compute; reflexivity |].
  split; [rewrite E; vm_compute; reflexivity | exact B].
Defined.

(* ================================================================== *)
(** * The cut set across clicks, undo and clear, on floats *)
(* ================================================================== *)

Section FlDebounce.
Local Open Scope Q_scope.

Variables dh gap : Z.
Hypothesis gap_nonneg : (0 <= gap)%Z.

Lemma fl_far_apart_comp (p x y : Q) :
  x == y -> Fl.far_apart dh gap p x = Fl.far_apart dh gap p y.
Proof.
  intro E. unfold Fl.far_apart, Py.gtb, Py.ltb, Fl.sub, Fl.mul. f_equal.
  apply Qleb_comp; [|reflexivity]. apply Qabs_wd, rnd_comp.
  assert (K : Fl.rnd (x * inject_Z dh) == Fl.rnd (y * inject_Z dh)).
  { apply rnd_comp. rewrite E. reflexivity. }
  rewrite K. reflexivity.
Qed.

Lemma fl_far_apart_same (x : Q) : Fl.far_apart dh gap x x = false.
Proof.
  unfold Fl.far_apart, Fl.sub. apply gtb_le.
  assert (E : Fl.rnd (Fl.mul x (inject_Z dh) - Fl.mul x (inject_Z dh)) == 0).
  { apply rnd_zero. ring. }
  rewrite E. simpl.
  change 0 with (inject_Z 0). rewrite <- Zle_Qle. exact gap_nonneg.
Qed.

Lemma fl_far_apart_neq (p c : Q) : Fl.far_apart dh gap p c = true -> ~ p == c.
Proof.
  intros Hfar E. rewrite <- (fl_far_apart_comp p p c E), fl_far_apart_same in Hfar.
  discriminate.
Qed.

Lemma fl_debounce_ordered (o : option Q) (l : list Q) :
  StronglySorted Qle l -> StronglySorted Qle (Fl.debounce_from dh gap o l).
Proof.
  intro H. revert o. induction H as [|c l Hl IH Hc]; intro o; simpl; [constructor|].
  assert (K : StronglySorted Qle (c :: Fl.debounce_from dh gap (Some c) l)).
  { constructor; [apply IH|]. apply Forall_forall. intros x Hx.
    rewrite Forall_forall in Hc. apply Hc. eapply fl_In_debounce, Hx. }
  destruct o as [p|]; [destruct (Fl.far_apart dh gap p c)|]; auto.
Qed.

Lemma fl_debounce_spaced (o : option Q) (l : list Q) :
  Fl.spaced dh gap o (Fl.debounce_from dh gap o l).
Proof.
  revert o. induction l as [|c l IH]; intro o; simpl; [exact I|].
  destruct o as [p|].
  - destruct (Fl.far_apart dh gap p c) eqn:E; simpl; auto.
  - simpl. auto.
Qed.

Lemma fl_length_debounce (o : option Q) (l : list Q) :
  (length (Fl.debounce_from dh gap o l) <= length l)%nat.
Proof.
  revert o. induction l as [|c l IH]; intro o; simpl; [lia|].
  destruct o as [p|]; [destruct (Fl.far_apart dh gap p c)|]; simpl;
    try (specialize (IH (Some c)); lia). specialize (IH (Some p)). lia.
Qed.

(** An ordered list whose neighbours the program measures as spaced
    increases strictly. *)
Lemma fl_spaced_strict (o : option Q) (l : list Q) :
  StronglySorted Qle l -> Fl.spaced dh gap o l -> StronglySorted Qlt l.
Proof.
  intros Hs. revert o. induction Hs as [|c l Hl IH Hc]; intros o Hsp; [constructor|].
  simpl in Hsp. destruct Hsp as [_ Hsp]. constructor; [eapply IH, Hsp|].
  destruct l as [|t l']; [constructor|].
  simpl in Hsp. destruct Hsp as [Hfar _].
  inversion Hc as [|? ? Hct Hc']; subst.
  assert (Hlt : c < t).
  { apply Qle_lteq in Hct. destruct Hct as [Hlt | Heq]; [exact Hlt|].
    exfalso. exact (fl_far_apart_neq c t Hfar Heq). }
  constructor; [exact Hlt|].
  inversion Hl as [|? ? _ Ht]; subst.
  eapply Forall_impl; [|exact Ht]. simpl. intros a Ha. eapply Qlt_le_trans; eassumption.
Qed.

Lemma fl_spaced_removelast (o : option Q) (l : list Q) :
  Fl.spaced dh gap o l -> Fl.spaced dh gap o (removelast l).
Proof.
  revert o. induction l as [|a l IH]; intros o H; [exact H|].
  destruct H as [Ha Hl]. simpl removelast.
  destruct l as [|b l']; [exact I|]. split; [exact Ha | apply IH, Hl].
Qed.

Hypothesis dh_range : (0 <= dh <= 2 ^ 40)%Z.

(** Two cuts of the page that the program measures as more than the gap
    apart are more than the gap less a thousandth of a pixel apart. *)
Lemma fl_far_apart_distance (p c : Q) :
  0 <= p -> p <= c -> c <= 1 -> Fl.far_apart dh gap p c = true ->
  inject_Z gap - (1 # 1000) < (c - p) * inject_Z dh.
Proof.
  intros Hp Hpc Hc Hfar. unfold Fl.far_apart in Hfar. apply gtb_gt in Hfar.
  destruct (inject_Z_bounds dh 0 (2 ^ 40) dh_range) as [Hh0 Hh1].
  change (inject_Z 0) with 0 in Hh0. change (inject_Z (2 ^ 40)) with 1099511627776 in Hh1.
  unfold Fl.mul, Fl.sub in Hfar. set (h := inject_Z dh) in *.
  assert (P0 : 0 <= p * h) by nra. assert (C0 : 0 <= c * h) by nra.
  assert (PC : p * h <= c * h) by nra. assert (C1 : c * h <= 1099511627776) by nra.
  pose proof (rnd_within (p * h) 1099511627776 P0) as EB.
  pose proof (rnd_within (c * h) 1099511627776 C0 C1) as EA.
  apply Qabs_Qle_condition in EA. apply Qabs_Qle_condition in EB; [|lra].
  unfold Fl.u in EA, EB.
  pose proof (rnd_mono _ _ PC) as AB.
  set (A := Fl.rnd (c * h)) in *. set (B := Fl.rnd (p * h)) in *.
  assert (D0 : 0 <= A - B) by lra.
  pose proof (rnd_within (A - B) 2199023255552 D0) as ED.
  apply Qabs_Qle_condition in ED; [|lra]. unfold Fl.u in ED.
  pose proof (rnd_nonneg _ D0) as M0.
  rewrite (Qabs_pos _ M0) in Hfar. lra.
Qed.

Lemma fl_spaced_distance (o : option Q) (l : list Q) :
  StronglySorted Qle l -> Forall (fun y => 0 <= y /\ y <= 1) l -> Fl.spaced dh gap o l ->
  forall i a b, nth_error l i = Some a -> nth_error l (S i) = Some b ->
    inject_Z gap - (1 # 1000) < (b - a) * inject_Z dh.
Proof.
  intros Hs. revert o. induction Hs as [|x l Hl IH Hx]; intros o Hin Hsp i a b Ha Hb.
  - destruct i; discriminate.
  - inversion Hin as [|? ? Hx01 Hin']; subst. destruct Hsp as [_ Hsp].
    destruct i as [|j].
    + simpl in Ha. injection Ha as <-. destruct l as [|y l']; [discriminate|].
      simpl in Hb. injection Hb as <-. destruct Hsp as [Hfar _].
      inversion Hx as [|? ? Hxy _]; subst. inversion Hin' as [|? ? Hy01 _]; subst.
      apply fl_far_apart_distance; [lra | exact Hxy | lra | exact Hfar].
    + simpl in Ha, Hb. eapply (IH (Some x)); eassumption.
Qed.

End FlDebounce.



Lemma fl_y_frac_inside (W H y_disp : Z) :
  (0 < W)%Z -> (0 < H <= 2 ^ 40)%Z -> (0 < Fl.y_orig_of W y_disp < H)%Z ->
  (0 < Fl.y_frac_of W H y_disp /\ Fl.y_frac_of W H y_disp < 1)%Q.
Proof.
  intros HW HH Hy. exact (proj1 (fl_click_numbers W H y_disp HW HH Hy)).
Qed.


